(** * gw (ghost writer): pattern-matching dispatch for file watching

    A shallow embedding of the two evolutions of package [gw] and the
    properties of its dispatch engine.

    - [States] embeds the state-tracking variant ([Match], [Ignore],
      [SetState], [SetStates], [Dispatch], [Watch], [watchRecursive],
      [hasMatcher], [hasIgnore], [nextDirty], [logEvent]).
    - [Triggers] embeds the trigger variant of gw.go ([Match], [Ignore],
      [Trigger], [Watch], [watchRecursive], [findMatcher], [shouldIgnore]).

    The package keeps its registries and the dirty map in package-level
    variables; here they are the fields of an explicit [World] that every
    operation takes and returns.  What the Go standard library, the runtime
    and the operating system contribute (regular expressions, the iteration
    order of a map, the file tree, the fsnotify watcher) is a parameter. *)

From stdpp Require Import gmap strings list fin_maps.

Set Default Proof Using "Type".

(** ** What the Go library and runtime provide *)

(** A Go [error] value, by its message. *)
Definition error : Type := string.

(** Package [regexp] ([Compile], [Regexp.MatchString]) and the order in
    which [range] visits a map, which the language leaves unspecified:
    [range_seed n] picks the entry visited first by the [n]-th such loop. *)
Class Runtime := {
  Regexp : Type;
  Compile : string → Regexp + error;
  MatchString : Regexp → string → bool;
  range_seed : nat → nat;
}.

(** How a call ends: it returns (with a nil or non-nil [error]; functions
    without a result return [None]) or it panics. *)
Inductive outcome :=
  | Returns (err : option error)
  | Panics (v : error).

(** [regexp.MustCompile]: like [Compile] but panics when the expression
    cannot be parsed. *)
Definition MustCompile `{Runtime} (pattern : string) : Regexp + error :=
  match Compile pattern with
  | inl r => inl r
  | inr e => inr ("regexp: Compile: " +:+ e)
  end.

(** One call that [filepath.Walk] makes to its callback: the path, whether
    [info.IsDir()], and the error passed in.  The callbacks of the package
    return nil or an error that ends the walk, never [SkipDir], so a walk is
    the list of these calls, cut at the first one the callback fails on. *)
Record walk_entry := WalkEntry {
  wpath : string;
  wisdir : bool;
  werr : option error;
}.

(** The file system and the fsnotify watcher, as far as the package observes
    them. *)
Record Env := {
  walk : string → list walk_entry;     (* filepath.Walk(root, fn) *)
  stat : string → bool + error;        (* os.Stat(name), then info.IsDir() *)
  watcher_add : string → option error; (* w.Add(path) *)
  new_watcher : option error;          (* fsnotify.NewWatcher() *)
}.

(** fsnotify.Op is a bit mask ([Write_] is fsnotify.Write). *)
Definition Create : N := 1.
Definition Write_ : N := 2.
Definition Remove : N := 4.
Definition Rename : N := 8.
Definition Chmod : N := 16.

(** What the [select] of a Watch loop receives, in the order received;
    [Outside] is the rest of the system changing the file tree meanwhile. *)
Inductive watch_input :=
  | TimeAfter
  | Events (name : string) (op : N)
  | Errors (err : option error)
  | Outside (g : Env → Env).

(** A Watch loop either has stopped, or has consumed its input and is
    blocked in [select] with the directories it subscribed to. *)
Inductive watch_result :=
  | Stopped (o : outcome)
  | Blocked (dirs : list string).

(** A small runtime to evaluate the model on examples: a pattern is a
    literal that matches the paths containing it, ["("] is the one pattern
    that does not compile, and [range] visits a map in the order of
    [map_to_list]. *)
Definition literal_match (r s : string) : bool :=
  match String.index 0 r s with
  | Some _ => true
  | None => false
  end.

Definition literal_runtime : Runtime := {|
  Regexp := string;
  Compile := λ pat,
    if String.eqb pat "(" then inr "missing closing )" else inl pat;
  MatchString := literal_match;
  range_seed := λ _, 0;
|}.

Definition literal (s : string) : @Regexp literal_runtime := s.

(** A tree with a build directory and a source directory, where every
    system call succeeds. *)
Definition example_env : Env := {|
  walk := λ _,
    [WalkEntry "." true None; WalkEntry "build" true None;
     WalkEntry "build/x" false None; WalkEntry "src" true None;
     WalkEntry "src/y" false None];
  stat := λ _, inl false;
  watcher_add := λ _, None;
  new_watcher := None;
|}.

(** * The state-tracking variant *)
Module States.

Inductive FileState := Clean | Changed | Deleted.

#[global] Instance FileState_eq_dec : EqDecision FileState.
Proof. solve_decision. Defined.

(** A handler is user code.  What matters to the package is the sequence of
    calls it makes back into the package (each may depend on the results of
    the earlier ones and on the file system), whether it panics, and the
    error it returns: [Handler] is [func(string, FileState) error].  The
    dirty map and the registries are unexported, so a handler can reach
    them through these calls only.  A body is a finite tree: a handler that
    never returns, that calls [Watch], that recovers from a panic or that
    assigns to [Log] is outside this model. *)
Inductive hprog :=
  | HReturn (err : option error)
  | HPanic (v : error)
  | HSetState (path : string) (state : FileState) (k : hprog)
  | HSetStates (pattern : string) (state : FileState) (k : option error → hprog)
  | HMatch (pattern : string) (h : string → FileState → hprog) (k : hprog)
  | HIgnore (pattern : string) (k : hprog)
  | HDispatch (k : option error → hprog)
  | HReadEnv (k : Env → hprog)
  | HWriteEnv (g : Env → Env) (k : hprog).

Definition Handler : Type := string → FileState → hprog.

(** What can be observed of a run: the calls to [Log] and the calls to
    handlers ([i] is the handler's position in [matchers]). *)
Inductive event :=
  | Logged (path : string) (state : FileState)
  | Invoked (i : nat) (path : string) (state : FileState).

Section Definitions.
Context `{RT : Runtime}.

Record matcher := Matcher {
  pattern : Regexp;
  f : Handler;
}.

(** The package-level variables [matchers], [ignores] and [states], with the
    environment, standard output, the trace of events and the number of
    [range] loops over [states] run so far. *)
Record World := {
  matchers : list matcher;
  ignores : list Regexp;
  states : gmap string FileState;
  env : Env;
  stdout : list string;
  events : list event;
  rng : nat;
}.

Definition set_matchers (ms : list matcher) (w : World) : World :=
  {| matchers := ms; ignores := ignores w; states := states w; env := env w;
     stdout := stdout w; events := events w; rng := rng w |}.

Definition set_ignores (rs : list Regexp) (w : World) : World :=
  {| matchers := matchers w; ignores := rs; states := states w; env := env w;
     stdout := stdout w; events := events w; rng := rng w |}.

Definition set_states (st : gmap string FileState) (w : World) : World :=
  {| matchers := matchers w; ignores := ignores w; states := st; env := env w;
     stdout := stdout w; events := events w; rng := rng w |}.

Definition set_env (e : Env) (w : World) : World :=
  {| matchers := matchers w; ignores := ignores w; states := states w; env := e;
     stdout := stdout w; events := events w; rng := rng w |}.

Definition println (line : string) (w : World) : World :=
  {| matchers := matchers w; ignores := ignores w; states := states w; env := env w;
     stdout := stdout w ++ [line]; events := events w; rng := rng w |}.

Definition emit (e : event) (w : World) : World :=
  {| matchers := matchers w; ignores := ignores w; states := states w; env := env w;
     stdout := stdout w; events := events w ++ [e]; rng := rng w |}.

Definition next_range (w : World) : World :=
  {| matchers := matchers w; ignores := ignores w; states := states w; env := env w;
     stdout := stdout w; events := events w; rng := S (rng w) |}.

(** The package-level variables as the package initialises them. *)
Definition initial (e : Env) : World :=
  {| matchers := []; ignores := []; states := ∅; env := e;
     stdout := []; events := []; rng := 0 |}.

(** [Match] appends a matcher; [regexp.MustCompile] panics first when the
    pattern does not compile. *)
Definition Match (pat : string) (h : Handler) (w : World) : outcome * World :=
  match MustCompile pat with
  | inl r => (Returns None, set_matchers (matchers w ++ [Matcher r h]) w)
  | inr v => (Panics v, w)
  end.

Definition Ignore (pat : string) (w : World) : outcome * World :=
  match MustCompile pat with
  | inl r => (Returns None, set_ignores (ignores w ++ [r]) w)
  | inr v => (Panics v, w)
  end.

Fixpoint hasMatcher_range (ms : list matcher) (path : string) : bool :=
  match ms with
  | [] => false
  | m :: ms' => if MatchString (pattern m) path then true else hasMatcher_range ms' path
  end.

Definition hasMatcher (path : string) (w : World) : bool :=
  hasMatcher_range (matchers w) path.

Fixpoint hasIgnore_range (rs : list Regexp) (path : string) : bool :=
  match rs with
  | [] => false
  | v :: rs' => if MatchString v path then true else hasIgnore_range rs' path
  end.

Definition hasIgnore (path : string) (w : World) : bool :=
  hasIgnore_range (ignores w) path.

(** [logEvent] prints the state's name and the path on one line. *)
Definition logEvent (path : string) (state : FileState) (w : World) : World :=
  let s := match state with
           | Clean => "clean"
           | Changed => "changed"
           | Deleted => "deleted"
           end in
  println (s +:+ " " +:+ path) w.

(** [var Log = logEvent]: a call to [Log] is recorded as an event and runs
    [logEvent], the value the package gives the variable. *)
Definition Log (path : string) (state : FileState) (w : World) : World :=
  logEvent path state (emit (Logged path state) w).

Definition SetState (path : string) (state : FileState) (w : World) : World :=
  if negb (hasMatcher path w) then w
  else
    let w1 := if decide (state = Clean)
              then set_states (delete path (states w)) w
              else set_states (<[path := state]> (states w)) w in
    Log path state w1.

(** The callback of [SetStates], over the calls [filepath.Walk] makes. *)
Fixpoint SetStates_walk (r : Regexp) (state : FileState)
    (entries : list walk_entry) (w : World) : option error * World :=
  match entries with
  | [] => (None, w)
  | e :: rest =>
      match werr e with
      | Some err => (Some err, w)
      | None =>
          if negb (MatchString r (wpath e)) || hasIgnore (wpath e) w
          then SetStates_walk r state rest w
          else SetStates_walk r state rest (SetState (wpath e) state w)
      end
  end.

Definition SetStates (pat : string) (state : FileState) (w : World)
    : option error * World :=
  match Compile pat with
  | inr err => (Some err, w)
  | inl r => SetStates_walk r state (walk (env w) ".") w
  end.

(** [for k, v := range states { return k, v, true }]: some entry of the map,
    chosen by the runtime. *)
Definition nextDirty (w : World) : (string * FileState * bool) * World :=
  let l := map_to_list (states w) in
  match l !! (range_seed (rng w) `mod` length l) with
  | Some (k, v) => ((k, v, true), next_range w)
  | None => (("", Clean, false), next_range w)
  end.

(** Running a handler body.  [D] is [Dispatch], for handlers that call it;
    [None] stands for a run that does not end within the fuel of [D]. *)
Fixpoint exec (D : World → option (outcome * World)) (p : hprog) (w : World)
    : option (outcome * World) :=
  match p with
  | HReturn err => Some (Returns err, w)
  | HPanic v => Some (Panics v, w)
  | HSetState path state k => exec D k (SetState path state w)
  | HSetStates pat state k =>
      let '(err, w') := SetStates pat state w in exec D (k err) w'
  | HMatch pat h k =>
      match Match pat h w with
      | (Returns _, w') => exec D k w'
      | (Panics v, w') => Some (Panics v, w')
      end
  | HIgnore pat k =>
      match Ignore pat w with
      | (Returns _, w') => exec D k w'
      | (Panics v, w') => Some (Panics v, w')
      end
  | HDispatch k =>
      match D w with
      | None => None
      | Some (Returns err, w') => exec D (k err) w'
      | Some (Panics v, w') => Some (Panics v, w')
      end
  | HReadEnv k => exec D (k (env w)) w
  | HWriteEnv g k => exec D k (set_env (g (env w)) w)
  end.

(** [for _, m := range matchers { if m.pattern.MatchString(path) { if err :=
    m.f(path, state); err != nil { return err } } }] over the slice [ms] that
    [range] evaluated once; [i] is the index of its head. *)
Fixpoint Dispatch_range (D : World → option (outcome * World))
    (ms : list matcher) (i : nat) (path : string) (state : FileState)
    (w : World) : option (outcome * World) :=
  match ms with
  | [] => Some (Returns None, w)
  | m :: ms' =>
      if MatchString (pattern m) path then
        match exec D (f m path state) (emit (Invoked i path state) w) with
        | Some (Returns None, w') => Dispatch_range D ms' (S i) path state w'
        | other => other
        end
      else Dispatch_range D ms' (S i) path state w
  end.

(** The body of the loop of [Dispatch] for the entry [nextDirty] returned. *)
Definition Dispatch_path (D : World → option (outcome * World))
    (path : string) (state : FileState) (w : World) : option (outcome * World) :=
  let w1 := SetState path Clean w in
  Dispatch_range D (matchers w1) 0 path state w1.

(** [Dispatch]; the loop ends when [nextDirty] finds nothing, or when a
    handler fails.  One unit of fuel per iteration. *)
Fixpoint Dispatch (fuel : nat) (w : World) : option (outcome * World) :=
  match fuel with
  | 0 => None
  | S fuel' =>
      match nextDirty w with
      | ((_, _, false), w1) => Some (Returns None, w1)
      | ((path, state, true), w1) =>
          match Dispatch_path (Dispatch fuel') path state w1 with
          | Some (Returns None, w2) => Dispatch fuel' w2
          | other => other
          end
      end
  end.

(** The callback of [watchRecursive]; [dirs] is what the watcher [w] is
    subscribed to. *)
Fixpoint watchRecursive_walk (entries : list walk_entry) (dirs : list string)
    (w : World) : option error * list string * World :=
  match entries with
  | [] => (None, dirs, w)
  | e :: rest =>
      match werr e with
      | Some err => (Some err, dirs, w)
      | None =>
          if negb (wisdir e) || hasIgnore (wpath e) w
          then watchRecursive_walk rest dirs w
          else
            let w1 := SetState (wpath e) Clean w in
            match watcher_add (env w1) (wpath e) with
            | Some err => (Some err, dirs, w1)
            | None => watchRecursive_walk rest (dirs ++ [wpath e]) w1
            end
      end
  end.

Definition watchRecursive (dirs : list string) (dir : string) (w : World)
    : option error * list string * World :=
  watchRecursive_walk (walk (env w) dir) dirs w.

(** The [for { select { ... } }] of [Watch]. *)
Fixpoint Watch_loop (fuel : nat) (inputs : list watch_input)
    (dirs : list string) (w : World) : option (watch_result * World) :=
  match inputs with
  | [] => Some (Blocked dirs, w)
  | TimeAfter :: rest =>
      (* Dispatch() : the result is dropped *)
      match Dispatch fuel w with
      | None => None
      | Some (Returns _, w') => Watch_loop fuel rest dirs w'
      | Some (Panics v, w') => Some (Stopped (Panics v), w')
      end
  | Events name op :: rest =>
      if hasIgnore name w then Watch_loop fuel rest dirs w
      else
        let created :=
          if decide (N.land op Create ≠ 0%N) then
            match stat (env w) name with
            | inr err => (Some err, dirs, w)
            | inl isdir =>
                if isdir then watchRecursive dirs name w else (None, dirs, w)
            end
          else (None, dirs, w) in
        match created with
        | (Some err, _, w') => Some (Stopped (Returns (Some err)), w')
        | (None, dirs', w') =>
            if decide (N.land op Remove ≠ 0%N)
            then Watch_loop fuel rest dirs' (SetState name Deleted w')
            else Watch_loop fuel rest dirs' (SetState name Changed w')
        end
  | Errors err :: rest => Some (Stopped (Returns err), w)
  | Outside g :: rest => Watch_loop fuel rest dirs (set_env (g (env w)) w)
  end.

Definition Watch (fuel : nat) (inputs : list watch_input) (w : World)
    : option (watch_result * World) :=
  match new_watcher (env w) with
  | Some err => Some (Stopped (Returns (Some err)), w)
  | None =>
      match watchRecursive [] "." w with
      | (Some err, _, w') => Some (Stopped (Returns (Some err)), w')
      | (None, dirs, w') => Watch_loop fuel inputs dirs w'
      end
  end.

End Definitions.

(** ** Notions used to state the properties *)
Section Notions.
Context `{RT : Runtime}.

(** The effect on the dirty map that a logged transition stands for. *)
Definition apply_event (st : gmap string FileState) (e : event)
    : gmap string FileState :=
  match e with
  | Logged path state =>
      if decide (state = Clean) then delete path st else <[path := state]> st
  | Invoked _ _ _ => st
  end.

Definition replay (tr : list event) (st : gmap string FileState)
    : gmap string FileState :=
  foldl apply_event st tr.

(** Every dirty path matches a registered handler pattern.  This holds of
    the initial world, whose dirty map is empty, and every operation of the
    package keeps it ([ext_registered] below). *)
Definition dirty_registered (w : World) : Prop :=
  ∀ path, is_Some (states w !! path) → hasMatcher path w = true.

(** [w'] comes after [w]: the registries have only been appended to, the
    trace has only grown, and the dirty map has changed as logged. *)
Record extends (w w' : World) : Prop := {
  ext_matchers : matchers w `prefix_of` matchers w';
  ext_ignores : ignores w `prefix_of` ignores w';
  ext_events :
    ∃ tr, events w' = events w ++ tr ∧ states w' = replay tr (states w);
  ext_registered : dirty_registered w → dirty_registered w';
}.

(** A handler body that never marks a path dirty: every [SetState] and
    [SetStates] in it, and in the handlers it registers, is with Clean. *)
Fixpoint quiet (p : hprog) : Prop :=
  match p with
  | HReturn _ | HPanic _ => True
  | HSetState _ state k => state = Clean ∧ quiet k
  | HSetStates _ state k => state = Clean ∧ ∀ err, quiet (k err)
  | HMatch _ h k => (∀ path state, quiet (h path state)) ∧ quiet k
  | HIgnore _ k => quiet k
  | HDispatch k => ∀ err, quiet (k err)
  | HReadEnv k => ∀ e, quiet (k e)
  | HWriteEnv _ k => quiet k
  end.

Definition quiet_handlers (ms : list matcher) : Prop :=
  Forall (λ m, ∀ path state, quiet (f m path state)) ms.

(** [Dispatch fuel0 w0] is at the head of its loop in world [w] with
    [fuel] left: every iteration so far has ended without an error. *)
Inductive Dispatch_reaches : nat → World → nat → World → Prop :=
  | reaches_start fuel w : Dispatch_reaches fuel w fuel w
  | reaches_next fuel w path state w1 w2 fuel' w' :
      nextDirty w = ((path, state, true), w1) →
      Dispatch_path (Dispatch fuel) path state w1 = Some (Returns None, w2) →
      Dispatch_reaches fuel w2 fuel' w' →
      Dispatch_reaches (S fuel) w fuel' w'.

(** [HandlersFor]: the handlers whose pattern matches [path], in
    registration order, each with its position in the registry. *)
Fixpoint HandlersFor_from (i : nat) (ms : list matcher) (path : string)
    : list (nat * Handler) :=
  match ms with
  | [] => []
  | m :: ms' =>
      if MatchString (pattern m) path
      then (i, f m) :: HandlersFor_from (S i) ms' path
      else HandlersFor_from (S i) ms' path
  end.

Definition HandlersFor (ms : list matcher) (path : string) : list (nat * Handler) :=
  HandlersFor_from 0 ms path.

(** Invoking handlers one after the other, each once the one before it has
    returned nil; the first that returns an error or panics ends it. *)
Fixpoint invoke_each (D : World → option (outcome * World))
    (hs : list (nat * Handler)) (path : string) (state : FileState) (w : World)
    : option (outcome * World) :=
  match hs with
  | [] => Some (Returns None, w)
  | (i, h) :: hs' =>
      match exec D (h path state) (emit (Invoked i path state) w) with
      | Some (Returns None, w') => invoke_each D hs' path state w'
      | other => other
      end
  end.

(** A handler body that only marks paths dirty: it never sets a path
    Clean and never calls [Dispatch], and neither do the handlers it
    registers. *)
Fixpoint marking (p : hprog) : Prop :=
  match p with
  | HReturn _ | HPanic _ => True
  | HSetState _ state k => state ≠ Clean ∧ marking k
  | HSetStates _ state k => state ≠ Clean ∧ ∀ err, marking (k err)
  | HMatch _ h k => (∀ path state, marking (h path state)) ∧ marking k
  | HIgnore _ k => marking k
  | HDispatch _ => False
  | HReadEnv k => ∀ e, marking (k e)
  | HWriteEnv _ k => marking k
  end.

Definition marking_handlers (ms : list matcher) : Prop :=
  Forall (λ m, ∀ path state, marking (f m path state)) ms.

(** An event that removes nothing from the dirty map. *)
Definition keeps_dirty (e : event) : Prop :=
  match e with
  | Logged _ state => state ≠ Clean
  | Invoked _ _ _ => True
  end.

(** From position [n] on, the trace [tr] has an invocation on [path] of
    every handler of [ms] whose pattern matches [path]. *)
Definition served_from (n : nat) (ms : list matcher) (path : string)
    (tr : list event) : Prop :=
  ∀ k m, ms !! k = Some m → MatchString (pattern m) path = true →
    ∃ j state, n ≤ j ∧ tr !! j = Some (Invoked k path state).

End Notions.

(** ** Elementary facts *)
Section Facts.
Context `{RT : Runtime}.
Implicit Types (w : World) (path pat : string) (state : FileState).
Implicit Types (ms : list matcher) (tr : list event).

Lemma hasMatcher_range_true ms path :
  hasMatcher_range ms path = true ↔
  ∃ m, m ∈ ms ∧ MatchString (pattern m) path = true.
Proof.
  induction ms as [|m ms IH]; simpl.
  - split; [done | intros (m & Hm & _); by apply elem_of_nil in Hm].
  - destruct (MatchString (pattern m) path) eqn:E.
    + split; [intros _; exists m; split; [left | done] | done].
    + rewrite IH. split.
      * intros (m' & Hm' & Hmatch). exists m'. split; [by right | done].
      * intros (m' & Hm' & Hmatch). apply elem_of_cons in Hm' as [-> | Hm'].
        -- congruence.
        -- by exists m'.
Qed.

Lemma hasMatcher_range_false ms path :
  hasMatcher_range ms path = false ↔
  Forall (λ m, MatchString (pattern m) path = false) ms.
Proof.
  induction ms as [|m ms IH]; simpl.
  - split; [constructor | done].
  - destruct (MatchString (pattern m) path) eqn:E.
    + split; [done | intros H; inversion H; congruence].
    + rewrite IH. split; [by constructor | intros H; by inversion H].
Qed.

Lemma hasMatcher_range_app ms ms' path :
  hasMatcher_range (ms ++ ms') path =
  hasMatcher_range ms path || hasMatcher_range ms' path.
Proof.
  induction ms as [|m ms IH]; simpl; [done|].
  by destruct (MatchString (pattern m) path).
Qed.

Lemma hasIgnore_range_true (rs : list Regexp) path :
  hasIgnore_range rs path = true ↔ ∃ v, v ∈ rs ∧ MatchString v path = true.
Proof.
  induction rs as [|v rs IH]; simpl.
  - split; [done | intros (v & Hv & _); by apply elem_of_nil in Hv].
  - destruct (MatchString v path) eqn:E.
    + split; [intros _; exists v; split; [left | done] | done].
    + rewrite IH. split.
      * intros (v' & Hv' & Hmatch). exists v'. split; [by right | done].
      * intros (v' & Hv' & Hmatch). apply elem_of_cons in Hv' as [-> | Hv'].
        -- congruence.
        -- by exists v'.
Qed.

(** [SetState] on a path with no matcher returns at once. *)
Lemma SetState_unmatched path state w :
  hasMatcher path w = false → SetState path state w = w.
Proof. intros H. unfold SetState. by rewrite H. Qed.

Lemma SetState_matched path state w :
  hasMatcher path w = true →
  SetState path state w =
  Log path state
    (if decide (state = Clean)
     then set_states (delete path (states w)) w
     else set_states (<[path := state]> (states w)) w).
Proof. intros H. unfold SetState. by rewrite H. Qed.

Lemma SetState_matchers path state w :
  matchers (SetState path state w) = matchers w.
Proof. unfold SetState. destruct (hasMatcher path w); [|done]. simpl. by case_decide. Qed.

Lemma SetState_ignores path state w :
  ignores (SetState path state w) = ignores w.
Proof. unfold SetState. destruct (hasMatcher path w); [|done]. simpl. by case_decide. Qed.

Lemma SetState_env path state w : env (SetState path state w) = env w.
Proof. unfold SetState. destruct (hasMatcher path w); [|done]. simpl. by case_decide. Qed.

Lemma SetState_rng path state w : rng (SetState path state w) = rng w.
Proof. unfold SetState. destruct (hasMatcher path w); [|done]. simpl. by case_decide. Qed.

Lemma SetState_states path state w :
  states (SetState path state w) =
  if hasMatcher path w
  then (if decide (state = Clean) then delete path (states w)
        else <[path := state]> (states w))
  else states w.
Proof. unfold SetState. destruct (hasMatcher path w); [|done]. simpl. by case_decide. Qed.

Lemma SetState_events path state w :
  events (SetState path state w) =
  if hasMatcher path w then events w ++ [Logged path state] else events w.
Proof. unfold SetState. destruct (hasMatcher path w); [|done]. simpl. by case_decide. Qed.

Lemma SetState_hasMatcher path state q w :
  hasMatcher q (SetState path state w) = hasMatcher q w.
Proof. unfold hasMatcher. by rewrite SetState_matchers. Qed.

Lemma SetState_hasIgnore path state q w :
  hasIgnore q (SetState path state w) = hasIgnore q w.
Proof. unfold hasIgnore. by rewrite SetState_ignores. Qed.

Lemma SetState_states_other path state q w :
  q ≠ path → states (SetState path state w) !! q = states w !! q.
Proof.
  intros Hne. rewrite SetState_states.
  destruct (hasMatcher path w); [|done].
  case_decide; [by rewrite lookup_delete_ne | by rewrite lookup_insert_ne].
Qed.

(** ** Every operation extends the world *)

Lemma replay_app tr1 tr2 (st : gmap string FileState) :
  replay (tr1 ++ tr2) st = replay tr2 (replay tr1 st).
Proof. unfold replay. by rewrite foldl_app. Qed.

Lemma extends_refl w : extends w w.
Proof.
  split; [done | done | | done]. exists []. by rewrite app_nil_r.
Qed.

Lemma extends_trans w1 w2 w3 : extends w1 w2 → extends w2 w3 → extends w1 w3.
Proof.
  intros [Hm1 Hi1 (tr1 & He1 & Hs1) Hr1] [Hm2 Hi2 (tr2 & He2 & Hs2) Hr2].
  split; [by etrans | by etrans | | by auto].
  exists (tr1 ++ tr2). split.
  - by rewrite He2, He1, app_assoc.
  - by rewrite Hs2, Hs1, replay_app.
Qed.

Lemma SetState_extends path state w : extends w (SetState path state w).
Proof.
  split.
  - by rewrite SetState_matchers.
  - by rewrite SetState_ignores.
  - rewrite SetState_events, SetState_states.
    destruct (hasMatcher path w).
    + exists [Logged path state]. split; [done|]. done.
    + exists []. by rewrite app_nil_r.
  - intros Hd q Hq. rewrite SetState_hasMatcher.
    rewrite SetState_states in Hq.
    destruct (hasMatcher path w) eqn:Hm; [|by apply Hd].
    case_decide.
    + apply Hd. destruct (decide (q = path)) as [->|Hne].
      * rewrite lookup_delete_eq in Hq. by destruct Hq.
      * by rewrite lookup_delete_ne in Hq.
    + destruct (decide (q = path)) as [->|Hne]; [done|].
      apply Hd. by rewrite lookup_insert_ne in Hq.
Qed.

Lemma SetStates_walk_extends r state entries w :
  extends w (SetStates_walk r state entries w).2.
Proof.
  revert w. induction entries as [|e rest IH]; intros w; simpl.
  - apply extends_refl.
  - destruct (werr e); [apply extends_refl|].
    destruct (negb (MatchString r (wpath e)) || hasIgnore (wpath e) w); [done|].
    eapply extends_trans; [apply SetState_extends | apply IH].
Qed.

Lemma SetStates_extends pat state w : extends w (SetStates pat state w).2.
Proof.
  unfold SetStates. destruct (Compile pat); [|apply extends_refl].
  apply SetStates_walk_extends.
Qed.

Lemma Match_extends pat h w : extends w (Match pat h w).2.
Proof.
  unfold Match. destruct (MustCompile pat); [|apply extends_refl].
  split; simpl; [by eexists | done | |].
  - exists []. by rewrite app_nil_r.
  - intros Hd q Hq. unfold hasMatcher. simpl.
    rewrite hasMatcher_range_app. apply orb_true_iff. left. by apply Hd.
Qed.

Lemma Ignore_extends pat w : extends w (Ignore pat w).2.
Proof.
  unfold Ignore. destruct (MustCompile pat); [|apply extends_refl].
  split; simpl; [done | by eexists | | done]. exists []. by rewrite app_nil_r.
Qed.

Lemma set_env_extends e w : extends w (set_env e w).
Proof. split; simpl; [done | done | | done]. exists []. by rewrite app_nil_r. Qed.

Lemma next_range_extends w : extends w (next_range w).
Proof. split; simpl; [done | done | | done]. exists []. by rewrite app_nil_r. Qed.

Lemma emit_Invoked_extends i path state w :
  extends w (emit (Invoked i path state) w).
Proof.
  split; simpl; [done | done | | done]. exists [Invoked i path state]. by split.
Qed.

Lemma watchRecursive_walk_extends entries dirs w :
  extends w (watchRecursive_walk entries dirs w).2.
Proof.
  revert dirs w. induction entries as [|e rest IH]; intros dirs w; simpl.
  - apply extends_refl.
  - destruct (werr e); [apply extends_refl|].
    destruct (negb (wisdir e) || hasIgnore (wpath e) w); [done|].
    destruct (watcher_add _ _); simpl; [apply SetState_extends|].
    eapply extends_trans; [apply SetState_extends | apply IH].
Qed.

(** What a callee [D] has to satisfy for the callers to extend the world. *)
Definition extending (D : World → option (outcome * World)) : Prop :=
  ∀ w r w', D w = Some (r, w') → extends w w'.

Lemma exec_extends D p :
  extending D → extending (exec D p).
Proof.
  intros HD. induction p as [err|v|path state k IH|pat state k IH|pat h _ k IH
    |pat k IH|k IH|k IH|g k IH]; intros w r w' Hex; simpl in Hex.
  - inversion Hex; subst. apply extends_refl.
  - inversion Hex; subst. apply extends_refl.
  - eapply extends_trans; [apply SetState_extends | by eapply IH].
  - pose proof (SetStates_extends pat state w) as Hs.
    destruct (SetStates pat state w) as [err w1]. simpl in Hs.
    eapply extends_trans; [exact Hs | by eapply IH].
  - pose proof (Match_extends pat h w) as Hs.
    destruct (Match pat h w) as [[err|v] w1]; simpl in Hs.
    + eapply extends_trans; [exact Hs | by eapply IH].
    + by inversion Hex; subst.
  - pose proof (Ignore_extends pat w) as Hs.
    destruct (Ignore pat w) as [[err|v] w1]; simpl in Hs.
    + eapply extends_trans; [exact Hs | by eapply IH].
    + by inversion Hex; subst.
  - destruct (D w) as [[[err|v] w1]|] eqn:HDw; [| |done].
    + eapply extends_trans; [by eapply HD | by eapply IH].
    + inversion Hex; subst. by eapply HD.
  - by eapply IH.
  - eapply extends_trans; [apply set_env_extends | by eapply IH].
Qed.

Lemma Dispatch_range_extends D ms i path state :
  extending D → extending (Dispatch_range D ms i path state).
Proof.
  intros HD. revert i. induction ms as [|m ms IH]; intros i w r w' Hr; simpl in Hr.
  - inversion Hr; subst. apply extends_refl.
  - destruct (MatchString (pattern m) path); [|by eapply IH].
    destruct (exec D (f m path state) (emit (Invoked i path state) w))
      as [[[[err|]|v] w1]|] eqn:Hex; [| | |done].
    + inversion Hr; subst.
      eapply extends_trans; [apply emit_Invoked_extends | by eapply exec_extends].
    + eapply extends_trans; [apply emit_Invoked_extends |].
      eapply extends_trans; [by eapply exec_extends | by eapply IH].
    + inversion Hr; subst.
      eapply extends_trans; [apply emit_Invoked_extends | by eapply exec_extends].
Qed.

Lemma Dispatch_path_extends D path state :
  extending D → extending (Dispatch_path D path state).
Proof.
  intros HD w r w' Hr. unfold Dispatch_path in Hr.
  eapply extends_trans; [apply SetState_extends | by eapply Dispatch_range_extends].
Qed.

Lemma nextDirty_world w : (nextDirty w).2 = next_range w.
Proof.
  unfold nextDirty.
  by destruct (map_to_list (states w) !! _) as [[k v]|].
Qed.

Lemma Dispatch_extends fuel : extending (Dispatch fuel).
Proof.
  induction fuel as [|fuel IH]; intros w r w' HD; simpl in HD; [done|].
  pose proof (nextDirty_world w) as Hw.
  destruct (nextDirty w) as [[[path state] [|]] w1]; simpl in Hw; subst w1.
  - destruct (Dispatch_path (Dispatch fuel) path state (next_range w))
      as [[[[err|]|v] w2]|] eqn:Hp; [| | |done].
    + inversion HD; subst.
      eapply extends_trans; [apply next_range_extends | by eapply Dispatch_path_extends].
    + eapply extends_trans; [apply next_range_extends |].
      eapply extends_trans; [by eapply Dispatch_path_extends | by eapply IH].
    + inversion HD; subst.
      eapply extends_trans; [apply next_range_extends | by eapply Dispatch_path_extends].
  - inversion HD; subst. apply next_range_extends.
Qed.

Lemma Watch_loop_extends fuel inputs dirs w res w' :
  Watch_loop fuel inputs dirs w = Some (res, w') → extends w w'.
Proof.
  revert dirs w. induction inputs as [|[|name op|err|g] rest IH];
    intros dirs w H; simpl in H.
  - inversion H; subst. apply extends_refl.
  - destruct (Dispatch fuel w) as [[[err|v] w1]|] eqn:HD; [| |done].
    + eapply extends_trans; [by eapply Dispatch_extends | by eapply IH].
    + inversion H; subst. by eapply Dispatch_extends.
  - destruct (hasIgnore name w); [by eapply IH|].
    assert (∀ c : option error * list string * World, extends w c.2 →
      match c with
      | (Some err, _, w1) => Some (Stopped (Returns (Some err)), w1)
      | (None, dirs', w1) =>
          if decide (N.land op Remove ≠ 0%N)
          then Watch_loop fuel rest dirs' (SetState name Deleted w1)
          else Watch_loop fuel rest dirs' (SetState name Changed w1)
      end = Some (res, w') → extends w w') as Hc.
    { intros [[[err|] dirs'] w1] Hext Hr; simpl in Hext.
      - by inversion Hr; subst.
      - eapply extends_trans; [exact Hext|].
        case_decide; (eapply extends_trans; [apply SetState_extends | by eapply IH]). }
    eapply Hc; [|exact H].
    destruct (decide (N.land op Create ≠ 0%N)); [|apply extends_refl].
    destruct (stat (env w) name) as [[|]|]; try apply extends_refl.
    apply watchRecursive_walk_extends.
  - inversion H; subst. apply extends_refl.
  - eapply extends_trans; [apply set_env_extends | by eapply IH].
Qed.

Lemma Watch_extends fuel inputs w res w' :
  Watch fuel inputs w = Some (res, w') → extends w w'.
Proof.
  unfold Watch. intros H. destruct (new_watcher (env w)).
  - inversion H; subst. apply extends_refl.
  - pose proof (watchRecursive_walk_extends (walk (env w) ".") [] w) as Hext.
    unfold watchRecursive in H.
    destruct (watchRecursive_walk (walk (env w) ".") [] w) as [[[err|] dirs] w1];
      simpl in Hext.
    + by inversion H; subst.
    + eapply extends_trans; [exact Hext | by eapply Watch_loop_extends].
Qed.

(** ** The registry gate and the log *)

(** C7: in the registry-gated variant, [SetState(p, Changed)] on a path
    that matches no registered handler pattern leaves the dirty map (indeed
    the whole world) as it was: the update is silently dropped. *)
Theorem SetState_unregistered_dropped path w :
  Forall (λ m, MatchString (pattern m) path = false) (matchers w) →
  states (SetState path Changed w) = states w ∧ SetState path Changed w = w.
Proof.
  intros H%hasMatcher_range_false.
  by rewrite (SetState_unmatched path Changed w H).
Qed.

(** C8 (amended): [SetState(path, state)] calls [Log] with that path and
    state exactly when the path matches a registered handler pattern, for
    every state and whatever the dirty map holds (so also for Clean on a
    path that is not dirty); on a path that matches no handler pattern it
    returns before [Log] and nothing is logged or printed. *)
Theorem SetState_logs_iff_registered path state w :
  (hasMatcher path w = true →
   events (SetState path state w) = events w ++ [Logged path state] ∧
   stdout (SetState path state w) =
     stdout (logEvent path state w)) ∧
  (hasMatcher path w = false →
   events (SetState path state w) = events w ∧
   stdout (SetState path state w) = stdout w).
Proof.
  split; intros H.
  - rewrite (SetState_matched _ _ _ H). destruct state; by case_decide.
  - by rewrite (SetState_unmatched _ _ _ H).
Qed.

(** [Match] with a pattern that does not compile panics and appends
    nothing. *)
Lemma Match_MustCompile_panics pat h w e :
  Compile pat = inr e →
  Match pat h w = (Panics ("regexp: Compile: " +:+ e), w).
Proof. intros H. unfold Match, MustCompile. by rewrite H. Qed.

(** ** The ignore filter *)

Lemma SetStates_walk_ignored r state entries path w :
  hasIgnore path w = true →
  states (SetStates_walk r state entries w).2 !! path = states w !! path.
Proof.
  revert w. induction entries as [|e rest IH]; intros w Hi; simpl; [done|].
  destruct (werr e); [done|].
  destruct (MatchString r (wpath e)); simpl; [|by apply IH].
  destruct (hasIgnore (wpath e) w) eqn:He; [by apply IH|].
  rewrite IH by by rewrite SetState_hasIgnore.
  apply SetState_states_other. intros ->. congruence.
Qed.

Lemma watchRecursive_walk_ignored entries dirs path w :
  hasIgnore path w = true →
  states (watchRecursive_walk entries dirs w).2 !! path = states w !! path.
Proof.
  revert dirs w. induction entries as [|e rest IH]; intros dirs w Hi; simpl; [done|].
  destruct (werr e); [done|].
  destruct (wisdir e); simpl; [|by apply IH].
  destruct (hasIgnore (wpath e) w) eqn:He; [by apply IH|].
  assert (path ≠ wpath e) as Hne by (intros ->; congruence).
  rewrite SetState_env.
  destruct (watcher_add (env w) (wpath e)); simpl.
  - by apply SetState_states_other.
  - rewrite IH by by rewrite SetState_hasIgnore.
    by apply SetState_states_other.
Qed.

(** C3 (amended): [SetState] itself does not look at the ignore patterns:
    for a path that matches a handler pattern it records any state other
    than Clean.  The ignore filter is in its callers: for a path [p] that
    matches a registered ignore pattern, [SetStates] and [watchRecursive]
    leave the entry of [p] in the dirty map as it was, and [Watch] drops a
    file event on [p] without calling [SetState]. *)
Theorem ignored_filtered_by_callers path w :
  hasIgnore path w = true →
  (∀ state, state ≠ Clean → hasMatcher path w = true →
     states (SetState path state w) !! path = Some state) ∧
  (∀ pat state, states (SetStates pat state w).2 !! path = states w !! path) ∧
  (∀ dirs dir, states (watchRecursive dirs dir w).2 !! path = states w !! path) ∧
  (∀ fuel op rest dirs,
     Watch_loop fuel (Events path op :: rest) dirs w = Watch_loop fuel rest dirs w).
Proof.
  intros Hi. split_and!.
  - intros state Hs Hm. rewrite SetState_states, Hm.
    case_decide; [done|]. by rewrite lookup_insert_eq.
  - intros pat state. unfold SetStates. destruct (Compile pat); [|done].
    by apply SetStates_walk_ignored.
  - intros dirs dir. by apply watchRecursive_walk_ignored.
  - intros fuel op rest dirs. simpl. by rewrite Hi.
Qed.

(** ** Watch and the errors of handlers *)

Lemma Watch_loop_ticks fuel n dirs w res w' :
  Watch_loop fuel (replicate n TimeAfter) dirs w = Some (res, w') →
  ∀ err, res ≠ Stopped (Returns err).
Proof.
  revert w. induction n as [|n IH]; intros w H err; simpl in H.
  - by inversion H.
  - destruct (Dispatch fuel w) as [[[e|v] w1]|]; [| |done].
    + by eapply IH.
    + by inversion H.
Qed.

(** On a timer tick [Watch] calls [Dispatch] and drops what it returns. *)
Lemma Watch_loop_tick fuel rest dirs w err w' :
  Dispatch fuel w = Some (Returns err, w') →
  Watch_loop fuel (TimeAfter :: rest) dirs w = Watch_loop fuel rest dirs w'.
Proof. intros H. simpl. by rewrite H. Qed.

(** ** Dispatch drains the dirty map *)

Lemma nextDirty_not_found w path state w1 :
  nextDirty w = ((path, state, false), w1) → states w = ∅.
Proof.
  unfold nextDirty. intros H.
  destruct (map_to_list (states w)) as [|kv l] eqn:Hl.
  - by apply map_to_list_empty_iff.
  - destruct ((kv :: l) !! (range_seed (rng w) `mod` length (kv :: l)))
      as [[k v]|] eqn:Hk; [done|].
    apply lookup_ge_None in Hk.
    pose proof (Nat.mod_upper_bound (range_seed (rng w)) (length (kv :: l))) as Hb.
    simpl in *. lia.
Qed.

Lemma nextDirty_found w path state w1 :
  nextDirty w = ((path, state, true), w1) →
  states w !! path = Some state ∧ w1 = next_range w.
Proof.
  unfold nextDirty. intros H.
  destruct (map_to_list (states w) !! _) as [[k v]|] eqn:Hk; [|done].
  inversion H; subst. split; [|done].
  apply elem_of_map_to_list. by eapply list_elem_of_lookup_2.
Qed.

Lemma Dispatch_nil_empty fuel w w' :
  Dispatch fuel w = Some (Returns None, w') → states w' = ∅.
Proof.
  revert w. induction fuel as [|fuel IH]; intros w H; simpl in H; [done|].
  destruct (nextDirty w) as [[[path state] [|]] w1] eqn:Hn.
  - destruct (Dispatch_path (Dispatch fuel) path state w1)
      as [[[[err|]|v] w2]|]; [done| |done|done].
    by eapply IH.
  - inversion H; subst. pose proof (nextDirty_world w) as Hw.
    rewrite Hn in Hw. simpl in Hw. subst w'. simpl.
    by eapply nextDirty_not_found.
Qed.

(** C6: after any sequence of [SetState] calls, if [Dispatch] returns a
    nil error then the dirty map is empty. *)
Theorem Dispatch_nil_drains fuel w0 (calls : list (string * FileState)) w' :
  Dispatch fuel (foldl (λ w c, SetState c.1 c.2 w) w0 calls)
    = Some (Returns None, w') →
  states w' = ∅.
Proof. apply Dispatch_nil_empty. Qed.

Lemma dirty_registered_empty w : states w = ∅ → dirty_registered w.
Proof. intros H q Hq. rewrite H, lookup_empty in Hq. by destruct Hq. Qed.

(** ** Fail-fast *)

Lemma Dispatch_range_app D ms1 ms2 i path state w wa :
  Dispatch_range D ms1 i path state w = Some (Returns None, wa) →
  Dispatch_range D (ms1 ++ ms2) i path state w =
  Dispatch_range D ms2 (i + length ms1) path state wa.
Proof.
  revert i w. induction ms1 as [|m ms1 IH]; intros i w H; simpl in *.
  - inversion H; subst. by rewrite Nat.add_0_r.
  - replace (i + S (length ms1)) with (S i + length ms1) by lia.
    destruct (MatchString (pattern m) path); [|by apply IH].
    destruct (exec D (f m path state) (emit (Invoked i path state) w))
      as [[[[err|]|v] w1]|]; [done| |done|done].
    by apply IH.
Qed.

Lemma Dispatch_reaches_eq fuel0 w0 fuel w :
  Dispatch_reaches fuel0 w0 fuel w → Dispatch fuel0 w0 = Dispatch fuel w.
Proof.
  induction 1 as [|fuel w path state w1 w2 fuel' w' Hn Hp _ IH]; [done|].
  simpl. by rewrite Hn, Hp.
Qed.

(** C4: if, at some iteration of [Dispatch], a handler invoked for the
    selected path returns an error, then [Dispatch] returns that error at
    once: the world it returns in is [wb], the world in which the handler
    returned.  So no further handler is invoked (the trace is the one of
    that moment), and every path that was dirty when the handler failed is
    still in the dirty map for the next call. *)
Theorem Dispatch_fail_fast fuel0 w0 fuel w path state w1 ms1 m ms2 wa e wb :
  Dispatch_reaches fuel0 w0 (S fuel) w →
  nextDirty w = ((path, state, true), w1) →
  matchers w1 = ms1 ++ m :: ms2 →
  Dispatch_range (Dispatch fuel) ms1 0 path state (SetState path Clean w1)
    = Some (Returns None, wa) →
  MatchString (pattern m) path = true →
  exec (Dispatch fuel) (f m path state)
    (emit (Invoked (length ms1) path state) wa) = Some (Returns (Some e), wb) →
  Dispatch fuel0 w0 = Some (Returns (Some e), wb).
Proof.
  intros Hreach Hn Hms Hpre Hmatch Hex.
  rewrite (Dispatch_reaches_eq _ _ _ _ Hreach). simpl. rewrite Hn.
  unfold Dispatch_path. rewrite SetState_matchers, Hms.
  rewrite (Dispatch_range_app _ _ _ _ _ _ _ _ Hpre). simpl.
  by rewrite Hmatch, Hex.
Qed.

(** ** Termination *)

(** [D] ends on every world that has at most [n] dirty paths and only quiet
    handlers, and leaves such a world. *)
Definition ends_within (n : nat) (D : World → option (outcome * World)) : Prop :=
  ∀ w, dirty_registered w → quiet_handlers (matchers w) → size (states w) ≤ n →
    ∃ r w', D w = Some (r, w') ∧ dirty_registered w' ∧
            quiet_handlers (matchers w') ∧ size (states w') ≤ size (states w).

Lemma SetState_Clean_size path w :
  size (states (SetState path Clean w)) ≤ size (states w).
Proof.
  rewrite SetState_states. destruct (hasMatcher path w); [|done].
  rewrite decide_True by done. apply map_subseteq_size, delete_subseteq.
Qed.

Lemma SetStates_walk_Clean_size r entries w :
  size (states (SetStates_walk r Clean entries w).2) ≤ size (states w).
Proof.
  revert w. induction entries as [|e rest IH]; intros w; simpl; [done|].
  destruct (werr e); [done|].
  destruct (negb (MatchString r (wpath e)) || hasIgnore (wpath e) w); [done|].
  etrans; [apply IH | apply SetState_Clean_size].
Qed.

Lemma SetStates_walk_matchers r state entries w :
  matchers (SetStates_walk r state entries w).2 = matchers w.
Proof.
  revert w. induction entries as [|e rest IH]; intros w; simpl; [done|].
  destruct (werr e); [done|].
  destruct (negb (MatchString r (wpath e)) || hasIgnore (wpath e) w); [done|].
  by rewrite IH, SetState_matchers.
Qed.

Lemma exec_quiet n D p :
  ends_within n D → quiet p → ends_within n (exec D p).
Proof.
  intros HD. induction p as [err|v|path state k IH|pat state k IH|pat h _ k IH
    |pat k IH|k IH|k IH|g k IH]; intros Hq w Hd Hm Hn; simpl in *.
  - by eauto 10.
  - by eauto 10.
  - destruct Hq as [-> Hq].
    pose proof (SetState_Clean_size path w) as Hsz.
    destruct (IH Hq (SetState path Clean w)) as (r & w' & Hex & ? & ? & ?).
    + by apply SetState_extends.
    + by rewrite SetState_matchers.
    + lia.
    + exists r, w'. split_and!; [done..|lia].
  - destruct Hq as [-> Hq]. unfold SetStates.
    destruct (Compile pat) as [r|e]; [|by apply IH].
    pose proof (SetStates_walk_Clean_size r (walk (env w) ".") w) as Hsz.
    pose proof (SetStates_walk_extends r Clean (walk (env w) ".") w) as Hext.
    pose proof (SetStates_walk_matchers r Clean (walk (env w) ".") w) as Hms.
    destruct (SetStates_walk r Clean (walk (env w) ".") w) as [err w1].
    simpl in *.
    destruct (IH err (Hq err) w1) as (r' & w' & Hex & ? & ? & ?).
    + by apply Hext.
    + by rewrite Hms.
    + lia.
    + exists r', w'. split_and!; [done..|lia].
  - destruct Hq as [Hh Hq].
    pose proof (Match_extends pat h w) as Hext. unfold Match in *.
    destruct (MustCompile pat) as [r|v]; simpl in *; [|by eauto 10].
    apply (IH Hq (set_matchers (matchers w ++ [Matcher r h]) w)); simpl.
    + by apply Hext.
    + apply Forall_app. split; [done|]. by apply Forall_singleton.
    + done.
  - pose proof (Ignore_extends pat w) as Hext. unfold Ignore in *.
    destruct (MustCompile pat) as [r|v]; simpl in *; [|by eauto 10].
    apply (IH Hq (set_ignores (ignores w ++ [r]) w)); simpl; [by apply Hext|done..].
  - destruct (HD w Hd Hm Hn) as (r & w1 & -> & ? & ? & ?).
    destruct r as [err|v]; [|by eauto 10].
    destruct (IH err (Hq err) w1) as (r' & w' & Hex & ? & ? & ?); [done..|lia|].
    exists r', w'. split_and!; [done..|lia].
  - by apply IH.
  - by apply (IH Hq (set_env (g (env w)) w)).
Qed.

Lemma Dispatch_range_quiet n D ms i path state :
  ends_within n D → quiet_handlers ms →
  ends_within n (Dispatch_range D ms i path state).
Proof.
  intros HD Hms. revert i.
  induction Hms as [|m ms Hm Hms IH]; intros i w Hd Hq Hn; simpl.
  - by eauto 10.
  - destruct (MatchString (pattern m) path); [|by apply IH].
    destruct (exec_quiet n D (f m path state) HD (Hm path state)
                (emit (Invoked i path state) w))
      as (r & w1 & -> & ? & ? & Hsz); [done..|].
    simpl in Hsz.
    destruct r as [[err|]|v]; [by eauto 10| |by eauto 10].
    destruct (IH (S i) w1) as (r' & w' & Hex & ? & ? & ?); [done..|lia|].
    exists r', w'. split_and!; [done..|lia].
Qed.

Lemma Dispatch_quiet fuel n : n < fuel → ends_within n (Dispatch fuel).
Proof.
  revert n. induction fuel as [|fuel IH]; intros n Hlt w Hd Hq Hn; [lia|].
  simpl. destruct (nextDirty w) as [[[path state] [|]] w1] eqn:Hnd.
  - apply nextDirty_found in Hnd as [Hlk ->].
    unfold Dispatch_path.
    set (w1 := SetState path Clean (next_range w)).
    assert (hasMatcher path (next_range w) = true) as Hhm by (by apply Hd).
    assert (size (states w) = S (size (states w1))) as Hsz.
    { unfold w1. rewrite SetState_states, Hhm, decide_True by done. simpl.
      rewrite map_size_delete, Hlk. simpl.
      assert (size (states w) ≠ 0); [|lia].
      apply map_size_non_empty_iff. intros Hem. by rewrite Hem in Hlk. }
    assert (dirty_registered w1) as Hd1.
    { by apply SetState_extends. }
    assert (matchers w1 = matchers w) as Hms1.
    { unfold w1. by rewrite SetState_matchers. }
    assert (quiet_handlers (matchers w1)) as Hq1 by (by rewrite Hms1).
    destruct (Dispatch_range_quiet (size (states w1)) (Dispatch fuel)
                (matchers w1) 0 path state
                (IH (size (states w1)) ltac:(lia)) Hq1 w1 Hd1 Hq1 ltac:(lia))
      as (r & w2 & -> & ? & ? & ?).
    destruct r as [[err|]|v]; [exists (Returns (Some err)), w2; split_and!; [done..|lia]|
                               |exists (Panics v), w2; split_and!; [done..|lia]].
    destruct (IH (size (states w1))) with (w := w2)
      as (r' & w' & Hex & ? & ? & ?); [lia|done..|].
    exists r', w'. split_and!; [done..|lia].
  - pose proof (nextDirty_world w) as Hw. rewrite Hnd in Hw. simpl in Hw. subst.
    by eauto 10.
Qed.

(** C10: from any (finite) dirty map, if no handler marks a path dirty,
    every [SetState] and [SetStates] that handlers make being with Clean,
    then [Dispatch] terminates: it ends within one iteration per initially
    dirty path and a last one that finds nothing, since each iteration
    removes the selected path before it invokes the handlers. *)
Theorem Dispatch_terminates_when_quiet fuel w :
  dirty_registered w → quiet_handlers (matchers w) →
  size (states w) < fuel →
  ∃ r w', Dispatch fuel w = Some (r, w') ∧
          size (states w') ≤ size (states w).
Proof.
  intros Hd Hq Hlt.
  destruct (Dispatch_quiet fuel (size (states w)) Hlt w)
    as (r & w' & H & _ & _ & Hsz); [done..|].
  by exists r, w'.
Qed.

(** ** Which handlers run for a path *)

Lemma Dispatch_range_invoke_each D ms i path state w :
  Dispatch_range D ms i path state w =
  invoke_each D (HandlersFor_from i ms path) path state w.
Proof.
  revert i w. induction ms as [|m ms IH]; intros i w; simpl; [done|].
  destruct (MatchString (pattern m) path); simpl; [|by apply IH].
  destruct (exec D (f m path state) (emit (Invoked i path state) w))
    as [[[[err|]|v] w1]|]; [done| |done|done].
  by apply IH.
Qed.

Lemma invoke_each_trace D hs path state w r w' :
  extending D →
  invoke_each D hs path state w = Some (r, w') →
  ∃ js rest tr,
    hs.*1 = js ++ rest ∧
    events w' = events w ++ tr ∧
    ((λ j, Invoked j path state) <$> js) `sublist_of` tr ∧
    (r = Returns None → rest = []).
Proof.
  intros HD. revert w. induction hs as [|[i h] hs IH]; intros w H; simpl in H.
  - inversion H; subst. exists [], [], [].
    split_and!; [done | by rewrite app_nil_r | apply sublist_nil_l | done].
  - destruct (exec D (h path state) (emit (Invoked i path state) w))
      as [[r1 w1]|] eqn:Hex; [|done].
    destruct (exec_extends D _ HD _ _ _ Hex) as [_ _ (tr1 & He1 & _) _].
    simpl in He1.
    assert (r1 = Returns None ∨ (r1 ≠ Returns None ∧ r = r1 ∧ w' = w1)) as [->|(Hne & -> & ->)].
    { destruct r1 as [[err|]|v]; [right|left|right]; by inversion H. }
    + destruct (IH _ H) as (js & rest & tr & Hjs & He & Hsub & Hnil).
      exists (i :: js), rest, (Invoked i path state :: tr1 ++ tr). split_and!.
      * rewrite fmap_cons. simpl. by f_equal.
      * rewrite He, He1. by rewrite <- !app_assoc.
      * simpl. apply sublist_skip. by apply sublist_inserts_l.
      * done.
    + exists [i], (hs.*1), (Invoked i path state :: tr1). split_and!.
      * done.
      * rewrite He1. by rewrite <- app_assoc.
      * simpl. apply sublist_skip, sublist_nil_l.
      * done.
Qed.

(** C1 (amended): processing a dirty path, [Dispatch] resets it and then
    invokes the handlers whose pattern matches the path one after the other
    in registration order, each once the one before it has returned nil; the
    first that returns an error or panics ends the call, and the matching
    handlers registered after it are not invoked.  So the handlers invoked
    are a prefix [js] of the matching ones, in registration order, and all
    of them when the path is processed without error. *)
Theorem Dispatch_invokes_matching_in_order path state w :
  (∀ D, Dispatch_path D path state w =
        invoke_each D (HandlersFor (matchers w) path) path state
          (SetState path Clean w)) ∧
  (∀ fuel r w', Dispatch_path (Dispatch fuel) path state w = Some (r, w') →
     ∃ js rest tr,
       (HandlersFor (matchers w) path).*1 = js ++ rest ∧
       events w' = events (SetState path Clean w) ++ tr ∧
       ((λ j, Invoked j path state) <$> js) `sublist_of` tr ∧
       (r = Returns None → rest = [])).
Proof.
  assert (∀ D, Dispatch_path D path state w =
        invoke_each D (HandlersFor (matchers w) path) path state
          (SetState path Clean w)) as Heq.
  { intros D. unfold Dispatch_path, HandlersFor.
    by rewrite Dispatch_range_invoke_each, SetState_matchers. }
  split; [done|]. intros fuel r w' H. rewrite Heq in H.
  eapply invoke_each_trace; [apply Dispatch_extends | done].
Qed.

Lemma HandlersFor_from_spec i ms path j h :
  (j, h) ∈ HandlersFor_from i ms path ↔
  ∃ k m, j = i + k ∧ ms !! k = Some m ∧ h = f m ∧
         MatchString (pattern m) path = true.
Proof.
  revert i. induction ms as [|m ms IH]; intros i; simpl.
  - split; [by intros ?%elem_of_nil | by intros (k & m & _ & ? & _)].
  - assert ((j, h) ∈ HandlersFor_from (S i) ms path ↔
            ∃ k m', j = i + S k ∧ ms !! k = Some m' ∧ h = f m' ∧
                    MatchString (pattern m') path = true) as IH'.
    { rewrite IH. by setoid_rewrite Nat.add_succ_r. }
    destruct (MatchString (pattern m) path) eqn:E.
    + rewrite elem_of_cons, IH'. split.
      * intros [Heq | (k & m' & ? & ? & ? & ?)].
        -- inversion Heq; subst. exists 0, m. by rewrite Nat.add_0_r.
        -- by exists (S k), m'.
      * intros (k & m' & ? & Hk & ? & ?). destruct k as [|k]; simpl in Hk.
        -- left. inversion Hk; subst. by rewrite Nat.add_0_r.
        -- right. by exists k, m'.
    + rewrite IH'. split.
      * intros (k & m' & ? & ? & ? & ?). by exists (S k), m'.
      * intros (k & m' & ? & Hk & ? & ?). destruct k as [|k]; simpl in Hk.
        -- inversion Hk; subst. congruence.
        -- by exists k, m'.
Qed.

(** ** Paths that handlers mark dirty during Dispatch *)

Lemma replay_keeps tr (st : gmap string FileState) q :
  Forall keeps_dirty tr → is_Some (st !! q) → is_Some (replay tr st !! q).
Proof.
  intros Hk. revert st. induction Hk as [|e tr He _ IH]; intros st Hq; [done|].
  apply IH. destruct e as [p s|]; simpl in *; [|done].
  rewrite decide_False by done.
  destruct (decide (p = q)) as [->|Hne].
  - by rewrite lookup_insert_eq.
  - by rewrite lookup_insert_ne.
Qed.

Lemma replay_mark tr (st : gmap string FileState) i q s :
  tr !! i = Some (Logged q s) → s ≠ Clean → Forall keeps_dirty (drop (S i) tr) →
  is_Some (replay tr st !! q).
Proof.
  intros Hi Hs Hk. rewrite <- (take_drop_middle tr i _ Hi).
  rewrite replay_app. change (replay (Logged q s :: drop (S i) tr) ?m)
    with (replay (drop (S i) tr) (apply_event m (Logged q s))).
  apply replay_keeps; [done|]. simpl. rewrite decide_False by done.
  by rewrite lookup_insert_eq.
Qed.

Lemma served_from_app_l n ms q t1 t2 :
  served_from n ms q t1 → served_from n ms q (t1 ++ t2).
Proof.
  intros H k m Hk Hm. destruct (H k m Hk Hm) as (j & s & ? & Hj).
  exists j, s. split; [done|]. by apply lookup_app_l_Some.
Qed.

Lemma served_from_app_r n n' ms q t1 t2 :
  served_from n ms q t2 → n' ≤ length t1 + n → served_from n' ms q (t1 ++ t2).
Proof.
  intros H Hle k m Hk Hm. destruct (H k m Hk Hm) as (j & s & ? & Hj).
  exists (length t1 + j), s. split; [lia|].
  rewrite lookup_app_r by lia. by replace (length t1 + j - length t1) with j by lia.
Qed.

Lemma SetStates_walk_marking r state entries w :
  state ≠ Clean →
  ∃ tr, events (SetStates_walk r state entries w).2 = events w ++ tr ∧
        Forall keeps_dirty tr.
Proof.
  intros Hs. revert w. induction entries as [|e rest IH]; intros w; simpl.
  - exists []. by rewrite app_nil_r.
  - destruct (werr e); [exists []; by rewrite app_nil_r|].
    destruct (negb (MatchString r (wpath e)) || hasIgnore (wpath e) w); [done|].
    destruct (IH (SetState (wpath e) state w)) as (tr & -> & Htr).
    rewrite SetState_events. destruct (hasMatcher (wpath e) w).
    + exists (Logged (wpath e) state :: tr). split; [by rewrite <- app_assoc|].
      by constructor.
    + by exists tr.
Qed.

Lemma exec_marking D p w r w' :
  marking p → marking_handlers (matchers w) →
  exec D p w = Some (r, w') →
  ∃ tr, events w' = events w ++ tr ∧ Forall keeps_dirty tr ∧
        marking_handlers (matchers w').
Proof.
  revert w. induction p as [err|v|path state k IH|pat state k IH|pat h _ k IH
    |pat k IH|k IH|k IH|g k IH]; intros w Hp Hm Hex; simpl in *.
  - inversion Hex; subst. exists []. by rewrite app_nil_r.
  - inversion Hex; subst. exists []. by rewrite app_nil_r.
  - destruct Hp as [Hs Hp].
    destruct (IH (SetState path state w)) as (tr & -> & Htr & ?); [done| |done|].
    { by rewrite SetState_matchers. }
    rewrite SetState_events. destruct (hasMatcher path w).
    + exists (Logged path state :: tr). split_and!; [by rewrite <- app_assoc| |done].
      by constructor.
    + by exists tr.
  - destruct Hp as [Hs Hp]. unfold SetStates in Hex.
    destruct (Compile pat) as [r0|e]; [|by eapply IH].
    destruct (SetStates_walk_marking r0 state (walk (env w) ".") w Hs)
      as (tr1 & He1 & Htr1).
    pose proof (SetStates_walk_matchers r0 state (walk (env w) ".") w) as Hms.
    destruct (SetStates_walk r0 state (walk (env w) ".") w) as [err w1].
    simpl in *.
    destruct (IH err w1) as (tr & -> & Htr & ?); [done|by rewrite Hms|done|].
    exists (tr1 ++ tr). split_and!; [by rewrite He1, app_assoc| |done].
    by apply Forall_app.
  - destruct Hp as [Hh Hp]. unfold Match in Hex.
    destruct (MustCompile pat) as [r0|v].
    + destruct (IH (set_matchers (matchers w ++ [Matcher r0 h]) w))
        as (tr & -> & Htr & ?); [done| |done|by exists tr].
      simpl. apply Forall_app. split; [done|]. by apply Forall_singleton.
    + inversion Hex; subst. exists []. by rewrite app_nil_r.
  - unfold Ignore in Hex. destruct (MustCompile pat) as [r0|v].
    + destruct (IH (set_ignores (ignores w ++ [r0]) w))
        as (tr & -> & Htr & ?); [done..|by exists tr].
    + inversion Hex; subst. exists []. by rewrite app_nil_r.
  - done.
  - by eapply IH.
  - destruct (IH (set_env (g (env w)) w)) as (tr & -> & Htr & ?); [done..|].
    by exists tr.
Qed.

Lemma Dispatch_range_marking D ms i path state w r w' :
  marking_handlers ms → marking_handlers (matchers w) →
  Dispatch_range D ms i path state w = Some (r, w') →
  ∃ tr, events w' = events w ++ tr ∧ Forall keeps_dirty tr ∧
        marking_handlers (matchers w') ∧
        (r = Returns None →
         ∀ k m, ms !! k = Some m → MatchString (pattern m) path = true →
           ∃ j, tr !! j = Some (Invoked (i + k) path state)).
Proof.
  intros Hms. revert i w.
  induction Hms as [|m ms Hm Hms IH]; intros i w Hw H; simpl in H.
  - inversion H; subst. exists []. rewrite app_nil_r. split_and!; [done..|].
    intros _ k m Hk. by rewrite lookup_nil in Hk.
  - destruct (MatchString (pattern m) path) eqn:Hmatch.
    + destruct (exec D (f m path state) (emit (Invoked i path state) w))
        as [[r1 w1]|] eqn:Hex; [|done].
      destruct (exec_marking D _ (emit (Invoked i path state) w) _ _
                  (Hm path state) Hw Hex)
        as (tr1 & He1 & Htr1 & Hw1). simpl in He1.
      assert (r1 = Returns None ∨ (r1 ≠ Returns None ∧ r = r1 ∧ w' = w1))
        as [->|(Hne & -> & ->)].
      { destruct r1 as [[err|]|v]; [right|left|right]; by inversion H. }
      * destruct (IH (S i) w1 Hw1 H) as (tr & -> & Htr & ? & Hall).
        exists (Invoked i path state :: tr1 ++ tr). split_and!.
        -- rewrite He1. by rewrite <- !app_assoc.
        -- constructor; [done|]. by apply Forall_app.
        -- done.
        -- intros Hr [|k] m' Hk Hm'; simpl in Hk.
           ++ exists 0. by rewrite Nat.add_0_r.
           ++ destruct (Hall Hr k m' Hk Hm') as (j & Hj).
              exists (S (length tr1 + j)). simpl.
              rewrite lookup_app_r by lia.
              replace (length tr1 + j - length tr1) with j by lia.
              by replace (i + S k) with (S i + k) by lia.
      * exists (Invoked i path state :: tr1). split_and!.
        -- rewrite He1. by rewrite <- !app_assoc.
        -- by constructor.
        -- done.
        -- done.
    + destruct (IH (S i) w Hw H) as (tr & -> & Htr & ? & Hall).
      exists tr. split_and!; [done..|].
      intros Hr [|k] m' Hk Hm'; simpl in Hk.
      * inversion Hk; subst. congruence.
      * destruct (Hall Hr k m' Hk Hm') as (j & Hj). exists j.
        by replace (i + S k) with (S i + k) by lia.
Qed.

Lemma extends_trace w w' tr :
  extends w w' → events w' = events w ++ tr → states w' = replay tr (states w).
Proof.
  intros [_ _ (tr' & He & Hs) _] Htr. rewrite He in Htr.
  apply app_inv_head in Htr. by subst.
Qed.

(** One iteration of [Dispatch], when handlers only mark. *)
Lemma Dispatch_path_marking D ms0 path state w w2 :
  extending D →
  ms0 `prefix_of` matchers w → marking_handlers (matchers w) →
  Dispatch_path D path state w = Some (Returns None, w2) →
  ∃ t1, events w2 = events w ++ t1 ∧
        marking_handlers (matchers w2) ∧
        served_from 0 ms0 path t1 ∧
        (∀ q, q ≠ path → is_Some (states w !! q) → is_Some (states w2 !! q)) ∧
        (∀ i q s, t1 !! i = Some (Logged q s) → s ≠ Clean →
                  is_Some (states w2 !! q)).
Proof.
  intros HD Hpre Hw Hp. unfold Dispatch_path in Hp.
  set (wc := SetState path Clean w) in *.
  assert (matchers wc = matchers w) as Hmc by apply SetState_matchers.
  destruct (Dispatch_range_marking D (matchers wc) 0 path state wc
              (Returns None) w2)
    as (tr1 & He1 & Htr1 & Hw2 & Hall); [by rewrite Hmc..|done|].
  pose proof (extends_trace wc w2 tr1
    (Dispatch_range_extends D _ _ _ _ HD _ _ _ Hp) He1) as Hst.
  assert (∃ pre, events wc = events w ++ pre ∧
                 (pre = [] ∨ pre = [Logged path Clean]) ∧
                 ∀ q, q ≠ path → states wc !! q = states w !! q)
    as (pre & Hepre & Hpre_cases & Hother).
  { unfold wc. rewrite SetState_events.
    destruct (hasMatcher path w) eqn:Hhm.
    - exists [Logged path Clean]. split_and!; [done|by right|].
      intros q Hq. by apply SetState_states_other.
    - exists []. rewrite app_nil_r. split_and!; [done|by left|].
      intros q Hq. by apply SetState_states_other. }
  exists (pre ++ tr1). split_and!.
  - by rewrite He1, Hepre, app_assoc.
  - done.
  - apply (served_from_app_r 0); [|lia].
    intros k m Hk Hm.
    destruct (Hall eq_refl k m) as (j & Hj); [|done|].
    { rewrite Hmc. by eapply prefix_lookup_Some. }
    exists j, state. split; [lia | exact Hj].
  - intros q Hne Hq. rewrite Hst. apply replay_keeps; [done|].
    by rewrite Hother.
  - intros i q s Hi Hs. rewrite Hst.
    apply lookup_app_Some in Hi as [Hi | [Hle Hi]].
    + destruct Hpre_cases as [-> | ->]; [by rewrite lookup_nil in Hi|].
      destruct i; simpl in Hi; [|by rewrite lookup_nil in Hi].
      by inversion Hi; subst.
    + eapply replay_mark; [done..|]. by apply Forall_drop.
Qed.

Lemma Dispatch_serves fuel w w' tr ms0 :
  ms0 `prefix_of` matchers w → marking_handlers (matchers w) →
  Dispatch fuel w = Some (Returns None, w') →
  events w' = events w ++ tr →
  (∀ q, is_Some (states w !! q) → served_from 0 ms0 q tr) ∧
  (∀ i q s, tr !! i = Some (Logged q s) → s ≠ Clean →
            served_from (S i) ms0 q tr).
Proof.
  revert w tr. induction fuel as [|fuel IH]; intros w tr Hpre Hw H Htr; [done|].
  simpl in H. destruct (nextDirty w) as [[[path state] [|]] w1] eqn:Hnd.
  - apply nextDirty_found in Hnd as [Hlk ->].
    destruct (Dispatch_path (Dispatch fuel) path state (next_range w))
      as [[[[err|]|v] w2]|] eqn:Hp; [done| |done|done].
    destruct (Dispatch_path_marking _ ms0 _ _ (next_range w) _
                (Dispatch_extends fuel) Hpre Hw Hp)
      as (t1 & He1 & Hw2 & Hserved & Hother & Hmarked).
    simpl in He1, Hother.
    pose proof (Dispatch_path_extends _ _ _ (Dispatch_extends fuel) _ _ _ Hp)
      as [Hm2 _ _ _]. simpl in Hm2.
    destruct (Dispatch_extends fuel _ _ _ H) as [_ _ (t2 & He2 & _) _].
    assert (tr = t1 ++ t2) as ->.
    { rewrite He2, He1, <- app_assoc in Htr. by apply app_inv_head in Htr. }
    destruct (IH w2 t2) as [IHA IHB]; [by etrans|done..|].
    split.
    + intros q Hq. destruct (decide (q = path)) as [->|Hne].
      * by apply served_from_app_l.
      * apply (served_from_app_r 0); [|lia]. apply IHA. by apply Hother.
    + intros i q s Hi Hs.
      apply lookup_app_Some in Hi as [Hi | [Hle Hi]].
      * apply (served_from_app_r 0).
        -- apply IHA. by eapply Hmarked.
        -- apply lookup_lt_Some in Hi. lia.
      * apply (served_from_app_r (S (i - length t1))); [|lia]. by eapply IHB.
  - pose proof (nextDirty_world w) as Hw1. rewrite Hnd in Hw1. simpl in Hw1.
    apply nextDirty_not_found in Hnd. inversion H; subst. simpl in Htr.
    assert (tr = []) as ->.
    { apply (app_inv_head (events w)). by rewrite app_nil_r. }
    split.
    + intros q Hq. rewrite Hnd, lookup_empty in Hq. by destruct Hq.
    + intros i q s Hi. by rewrite lookup_nil in Hi.
Qed.

(** C5 (amended): let handlers only mark paths dirty (they neither set a
    path Clean nor call [Dispatch] themselves).  If [Dispatch] returns nil,
    then for every path that a handler marked dirty during the call (a
    logged transition to a state other than Clean in the trace [tr] of the
    call), every handler registered when [Dispatch] was called whose pattern
    matches the path is invoked on it later in the same call.  When
    [Dispatch] returns a handler's error instead, paths marked dirty may be
    left dirty for the next call. *)
Theorem Dispatch_serves_marked_paths fuel w w' tr i path state :
  marking_handlers (matchers w) →
  Dispatch fuel w = Some (Returns None, w') →
  events w' = events w ++ tr →
  tr !! i = Some (Logged path state) → state ≠ Clean →
  ∀ k m, matchers w !! k = Some m → MatchString (pattern m) path = true →
    ∃ j state', i < j ∧ tr !! j = Some (Invoked k path state').
Proof.
  intros Hw H Htr Hi Hs k m Hk Hm.
  destruct (Dispatch_serves fuel w w' tr (matchers w)) as [_ HB]; [done..|].
  destruct (HB i path state Hi Hs k m Hk Hm) as (j & s' & Hj & Hlk).
  exists j, s'. split; [lia|done].
Qed.

(** ** Further properties of the dirty map *)

(** X1: on a path that matches a handler pattern, [SetState] overrides: the
    entry of the path afterwards is the state just set (no entry for Clean),
    whatever was set before, and the other entries are untouched. *)
Theorem SetState_overrides path s1 s2 w :
  hasMatcher path w = true →
  states (SetState path s2 (SetState path s1 w)) = states (SetState path s2 w) ∧
  states (SetState path s2 w) !! path
    = (if decide (s2 = Clean) then None else Some s2) ∧
  ∀ q, q ≠ path → states (SetState path s2 w) !! q = states w !! q.
Proof.
  intros Hm. split_and!.
  - rewrite !SetState_states, SetState_hasMatcher, Hm.
    destruct (decide (s1 = Clean)), (decide (s2 = Clean)).
    + apply delete_delete_eq.
    + apply insert_delete_eq.
    + apply delete_insert_eq.
    + apply insert_insert_eq.
  - rewrite SetState_states, Hm. case_decide.
    + apply lookup_delete_eq.
    + apply lookup_insert_eq.
  - intros q Hq. by apply SetState_states_other.
Qed.

(** X2: [SetState(path, Clean)] on a path that is not dirty leaves the
    dirty map as it was ([delete] of a missing key). *)
Theorem SetState_Clean_absent path w :
  states w !! path = None → states (SetState path Clean w) = states w.
Proof.
  intros H. rewrite SetState_states. destruct (hasMatcher path w); [|done].
  rewrite decide_True by done. by apply delete_id.
Qed.

Lemma SetStates_walk_hasMatcher r state entries q w :
  hasMatcher q (SetStates_walk r state entries w).2 = hasMatcher q w.
Proof. unfold hasMatcher. by rewrite SetStates_walk_matchers. Qed.

Lemma SetStates_walk_no_error r state entries w :
  Forall (λ e, werr e = None) entries →
  (SetStates_walk r state entries w).1 = None.
Proof.
  intros H. revert w. induction H as [|e rest He _ IH]; intros w; simpl; [done|].
  rewrite He.
  by destruct (negb (MatchString r (wpath e)) || hasIgnore (wpath e) w).
Qed.

(** A walk of [SetStates] reaches [path] and passes it to [SetState], which
    records it. *)
Definition marked (r : Regexp) (entries : list walk_entry) (w : World)
    (path : string) : Prop :=
  (∃ e, e ∈ entries ∧ wpath e = path) ∧ MatchString r path = true ∧
  hasIgnore path w = false ∧ hasMatcher path w = true.

Lemma marked_cons r e rest w path :
  marked r (e :: rest) w path ↔
  (wpath e = path ∧ MatchString r path = true ∧
   hasIgnore path w = false ∧ hasMatcher path w = true) ∨ marked r rest w path.
Proof.
  unfold marked. split.
  - intros ((e' & [->|Hin]%elem_of_cons & He') & ? & ? & ?); [by left|].
    right. split; [by exists e'|done].
  - intros [(He & ? & ? & ?)|((e' & Hin & He') & ? & ? & ?)].
    + split; [|done]. exists e. split; [by left|done].
    + split; [|done]. exists e'. split; [by right|done].
Qed.

Lemma marked_dec r entries w path :
  marked r entries w path ∨ ¬ marked r entries w path.
Proof.
  induction entries as [|e rest IH].
  - right. by intros ((e & ?%elem_of_nil & _) & _).
  - destruct IH as [IH|IH]; [left; apply marked_cons; by right|].
    destruct (decide (wpath e = path)) as [He|He];
      [|right; intros [(? & _)|?]%marked_cons; done].
    destruct (MatchString r path) eqn:Hr;
      [|right; intros [(_ & ? & _)|?]%marked_cons; [congruence|done]].
    destruct (hasIgnore path w) eqn:Hi;
      [right; intros [(_ & _ & ? & _)|?]%marked_cons; [congruence|done]|].
    destruct (hasMatcher path w) eqn:Hm;
      [|right; intros [(_ & _ & _ & ?)|?]%marked_cons; [congruence|done]].
    left. apply marked_cons. by left.
Qed.

Lemma marked_SetState r entries q state w path :
  marked r entries (SetState q state w) path ↔ marked r entries w path.
Proof. unfold marked. by rewrite SetState_hasIgnore, SetState_hasMatcher. Qed.

Lemma SetStates_walk_lookup r state entries w path :
  Forall (λ e, werr e = None) entries →
  (marked r entries w path →
   states (SetStates_walk r state entries w).2 !! path
     = (if decide (state = Clean) then None else Some state)) ∧
  (¬ marked r entries w path →
   states (SetStates_walk r state entries w).2 !! path = states w !! path).
Proof.
  intros H. revert w. induction H as [|e rest He _ IH]; intros w.
  - simpl. split; [|done]. by intros ((e & ?%elem_of_nil & _) & _).
  - simpl. rewrite He.
    destruct (MatchString r (wpath e)) eqn:Hr; simpl.
    + destruct (hasIgnore (wpath e) w) eqn:Hi.
      * destruct (IH w) as [IH1 IH2]. split.
        -- intros [(<- & _ & ? & _)|Hm]%marked_cons; [congruence|by apply IH1].
        -- intros Hn. apply IH2. intros Hm. apply Hn, marked_cons. by right.
      * destruct (IH (SetState (wpath e) state w)) as [IH1 IH2].
        setoid_rewrite marked_SetState in IH1.
        setoid_rewrite marked_SetState in IH2.
        destruct (marked_dec r rest w path) as [Hm|Hm].
        -- split; [intros _; by apply IH1|].
           intros Hn. destruct Hn. apply marked_cons. by right.
        -- rewrite (IH2 Hm). rewrite SetState_states. split.
           ++ intros [(<- & _ & _ & Hhm)|?]%marked_cons; [|done].
              rewrite Hhm. case_decide;
                [apply lookup_delete_eq | apply lookup_insert_eq].
           ++ intros Hn. destruct (hasMatcher (wpath e) w) eqn:Hhm; [|done].
              assert (wpath e ≠ path) as Hne.
              { intros <-. apply Hn, marked_cons. by left. }
              case_decide; [by rewrite lookup_delete_ne|by rewrite lookup_insert_ne].
    + destruct (IH w) as [IH1 IH2]. split.
      * intros [(<- & ? & _)|Hm]%marked_cons; [congruence|by apply IH1].
      * intros Hn. apply IH2. intros Hm. apply Hn, marked_cons. by right.
Qed.

(** X3: when the walk meets no error, [SetStates] returns nil and sets
    exactly the paths of the tree that match its pattern, match no ignore
    pattern and match a handler pattern; every other entry of the dirty map
    is as before. *)
Theorem SetStates_marks_exactly pat r state w path :
  Compile pat = inl r →
  Forall (λ e, werr e = None) (walk (env w) ".") →
  (SetStates pat state w).1 = None ∧
  (marked r (walk (env w) ".") w path →
   states (SetStates pat state w).2 !! path
     = (if decide (state = Clean) then None else Some state)) ∧
  (¬ marked r (walk (env w) ".") w path →
   states (SetStates pat state w).2 !! path = states w !! path).
Proof.
  intros Hc Hw. unfold SetStates. rewrite Hc. split.
  - by apply SetStates_walk_no_error.
  - by apply SetStates_walk_lookup.
Qed.

Lemma SetStates_walk_app_error r state pre e post w err :
  Forall (λ e, werr e = None) pre → werr e = Some err →
  SetStates_walk r state (pre ++ e :: post) w
    = (Some err, (SetStates_walk r state pre w).2).
Proof.
  intros Hpre He. revert w. induction Hpre as [|e0 pre He0 _ IH]; intros w; simpl.
  - by rewrite He.
  - rewrite He0.
    by destruct (negb (MatchString r (wpath e0)) || hasIgnore (wpath e0) w).
Qed.

(** X4: [SetStates] returns the first error of the walk; what it set on
    the way there stays set (the paths before the error, none after it). *)
Theorem SetStates_stops_at_walk_error pat r state w pre e post err :
  Compile pat = inl r →
  walk (env w) "." = pre ++ e :: post →
  Forall (λ e, werr e = None) pre → werr e = Some err →
  SetStates pat state w = (Some err, (SetStates_walk r state pre w).2).
Proof.
  intros Hc Hw Hpre He. unfold SetStates. rewrite Hc, Hw.
  by apply SetStates_walk_app_error.
Qed.

(** X5: [nextDirty] returns an entry that is in the dirty map, and reports
    nothing found (with the zero values) exactly when the map is empty; it
    removes nothing and logs nothing. *)
Theorem nextDirty_entry w :
  states (nextDirty w).2 = states w ∧ events (nextDirty w).2 = events w ∧
  (∀ k v, (nextDirty w).1 = (k, v, true) → states w !! k = Some v) ∧
  ((nextDirty w).1 = ("", Clean, false) ↔ states w = ∅).
Proof.
  rewrite nextDirty_world. split_and!; [done..| |].
  - intros k v H. destruct (nextDirty w) as [x w1] eqn:Hn. simpl in H. subst x.
    by apply nextDirty_found in Hn as [? _].
  - destruct (nextDirty w) as [[[k v] b] w1] eqn:Hn. simpl. split.
    + intros H. inversion H; subst. by eapply nextDirty_not_found.
    + intros He. unfold nextDirty in Hn. rewrite He, map_to_list_empty in Hn.
      simpl in Hn. by inversion Hn.
Qed.

(** X6: with nothing dirty, [Dispatch] returns nil at once: it invokes no
    handler, logs and prints nothing and leaves the registries alone. *)
Theorem Dispatch_nothing_dirty fuel w :
  states w = ∅ → Dispatch (S fuel) w = Some (Returns None, next_range w).
Proof.
  intros He. simpl. unfold nextDirty. rewrite He, map_to_list_empty. done.
Qed.

(** ** Further properties of Dispatch *)

(** The line [logEvent] prints. *)
Definition log_line (path : string) (state : FileState) : string :=
  match state with
  | Clean => "clean"
  | Changed => "changed"
  | Deleted => "deleted"
  end +:+ " " +:+ path.

Definition render (e : event) : option string :=
  match e with
  | Logged path state => Some (log_line path state)
  | Invoked _ _ _ => None
  end.

(** Every invocation in [tr] is of a handler of [ms] on a path that its
    pattern matches. *)
Definition invocations_match (ms : list matcher) (tr : list event) : Prop :=
  ∀ i path state, Invoked i path state ∈ tr →
    ∃ m, ms !! i = Some m ∧ MatchString (pattern m) path = true.

(** From [w] to [w'] the trace grew by invocations that match and standard
    output grew by one line for each logged transition. *)
Definition traced (w w' : World) : Prop :=
  matchers w `prefix_of` matchers w' ∧
  ∃ tr, events w' = events w ++ tr ∧
        invocations_match (matchers w') tr ∧
        stdout w' = stdout w ++ omap render tr.

Definition tracing (D : World → option (outcome * World)) : Prop :=
  ∀ w r w', D w = Some (r, w') → traced w w'.

Lemma invocations_match_prefix ms ms' tr :
  ms `prefix_of` ms' → invocations_match ms tr → invocations_match ms' tr.
Proof.
  intros Hp H i path state Hin. destruct (H i path state Hin) as (m & Hm & ?).
  exists m. split; [by eapply prefix_lookup_Some|done].
Qed.

Lemma traced_refl w : traced w w.
Proof.
  split; [done|]. exists []. rewrite !app_nil_r. split_and!; [done| |done].
  by intros i path state ?%elem_of_nil.
Qed.

Lemma traced_trans w1 w2 w3 : traced w1 w2 → traced w2 w3 → traced w1 w3.
Proof.
  intros [Hp1 (tr1 & He1 & Hm1 & Ho1)] [Hp2 (tr2 & He2 & Hm2 & Ho2)].
  split; [by etrans|]. exists (tr1 ++ tr2). split_and!.
  - by rewrite He2, He1, app_assoc.
  - intros i path state [Hin|Hin]%elem_of_app.
    + exact (invocations_match_prefix _ _ _ Hp2 Hm1 _ _ _ Hin).
    + exact (Hm2 _ _ _ Hin).
  - by rewrite Ho2, Ho1, omap_app, app_assoc.
Qed.

Lemma traced_silent w w' :
  matchers w `prefix_of` matchers w' → events w' = events w →
  stdout w' = stdout w → traced w w'.
Proof.
  intros Hp He Ho. split; [done|]. exists []. rewrite !app_nil_r.
  split_and!; [done| |done]. by intros i path state ?%elem_of_nil.
Qed.

Lemma SetState_traced path state w : traced w (SetState path state w).
Proof.
  unfold SetState. destruct (hasMatcher path w); simpl; [|apply traced_refl].
  split; [by case_decide|]. exists [Logged path state]. split_and!.
  - by case_decide.
  - intros i p s Hin%list_elem_of_singleton. done.
  - destruct state; by case_decide.
Qed.

Lemma SetStates_walk_traced r state entries w :
  traced w (SetStates_walk r state entries w).2.
Proof.
  revert w. induction entries as [|e rest IH]; intros w; simpl.
  - apply traced_refl.
  - destruct (werr e); [apply traced_refl|].
    destruct (negb (MatchString r (wpath e)) || hasIgnore (wpath e) w); [done|].
    eapply traced_trans; [apply SetState_traced | apply IH].
Qed.

Lemma exec_traced D p : tracing D → tracing (exec D p).
Proof.
  intros HD. induction p as [err|v|path state k IH|pat state k IH|pat h _ k IH
    |pat k IH|k IH|k IH|g k IH]; intros w r w' Hex; simpl in Hex.
  - inversion Hex; subst. apply traced_refl.
  - inversion Hex; subst. apply traced_refl.
  - eapply traced_trans; [apply SetState_traced | by eapply IH].
  - unfold SetStates in Hex. destruct (Compile pat) as [r0|e]; [|by eapply IH].
    pose proof (SetStates_walk_traced r0 state (walk (env w) ".") w) as Hs.
    destruct (SetStates_walk r0 state (walk (env w) ".") w) as [err w1].
    eapply traced_trans; [exact Hs | by eapply IH].
  - unfold Match in Hex. destruct (MustCompile pat) as [r0|v].
    + eapply traced_trans; [|by eapply IH].
      apply traced_silent; simpl; [by eexists|done..].
    + inversion Hex; subst. apply traced_refl.
  - unfold Ignore in Hex. destruct (MustCompile pat) as [r0|v].
    + eapply traced_trans; [|by eapply IH]. by apply traced_silent.
    + inversion Hex; subst. apply traced_refl.
  - destruct (D w) as [[[err|v] w1]|] eqn:HDw; [| |done].
    + eapply traced_trans; [by eapply HD | by eapply IH].
    + inversion Hex; subst. by eapply HD.
  - by eapply IH.
  - eapply traced_trans; [|by eapply IH]. by apply traced_silent.
Qed.

Lemma emit_Invoked_traced i path state m w :
  matchers w !! i = Some m → MatchString (pattern m) path = true →
  traced w (emit (Invoked i path state) w).
Proof.
  intros Hi Hm. split; [done|]. exists [Invoked i path state]. simpl.
  split_and!; [done| |by rewrite app_nil_r].
  intros i' p s Hin%list_elem_of_singleton. inversion Hin; subst. by exists m.
Qed.

Lemma Dispatch_range_traced D ms i path state w r w' :
  tracing D →
  (∀ k m, ms !! k = Some m → matchers w !! (i + k) = Some m) →
  Dispatch_range D ms i path state w = Some (r, w') → traced w w'.
Proof.
  intros HD. revert i w. induction ms as [|m ms IH]; intros i w Hms H; simpl in H.
  - inversion H; subst. apply traced_refl.
  - assert (∀ w1, matchers w `prefix_of` matchers w1 →
              ∀ k m', ms !! k = Some m' → matchers w1 !! (S i + k) = Some m')
      as Hnext.
    { intros w1 Hp k m' Hk. eapply prefix_lookup_Some; [|done].
      replace (S i + k) with (i + S k) by lia. by apply Hms. }
    destruct (MatchString (pattern m) path) eqn:Hmatch;
      [|by eapply IH; [apply Hnext|]].
    assert (traced w (emit (Invoked i path state) w)) as Hemit.
    { eapply emit_Invoked_traced; [|done].
      specialize (Hms 0 m eq_refl). by rewrite Nat.add_0_r in Hms. }
    destruct (exec D (f m path state) (emit (Invoked i path state) w))
      as [[r1 w1]|] eqn:Hex; [|done].
    pose proof (exec_traced D _ HD _ _ _ Hex) as Hex'.
    pose proof (traced_trans _ _ _ Hemit Hex') as Hw1.
    destruct r1 as [[err|]|v]; [by inversion H; subst| |by inversion H; subst].
    eapply traced_trans; [exact Hw1|].
    eapply IH; [|done]. apply Hnext. by destruct Hw1.
Qed.

Lemma Dispatch_traced fuel : tracing (Dispatch fuel).
Proof.
  induction fuel as [|fuel IH]; intros w r w' HD; simpl in HD; [done|].
  pose proof (nextDirty_world w) as Hw.
  destruct (nextDirty w) as [[[path state] [|]] w1]; simpl in Hw; subst w1.
  - assert (traced w (next_range w)) as H0 by (by apply traced_silent).
    destruct (Dispatch_path (Dispatch fuel) path state (next_range w))
      as [[r1 w2]|] eqn:Hp; [|done].
    assert (traced (next_range w) w2) as H1.
    { unfold Dispatch_path in Hp.
      eapply traced_trans; [apply SetState_traced|].
      eapply Dispatch_range_traced; [done| |done]. by intros k m Hk. }
    destruct r1 as [[err|]|v]; [by inversion HD; subst| |by inversion HD; subst].
    eapply traced_trans; [exact H1 | by eapply IH].
  - inversion HD; subst. by apply traced_silent.
Qed.

(** X7: [Dispatch] invokes a handler only on a path that the handler's
    pattern matches: every invocation in the trace of a call (those of
    nested calls included) is of a registered handler whose pattern matches
    the path it is invoked on. *)
Theorem Dispatch_invokes_only_matching fuel w r w' tr i path state :
  Dispatch fuel w = Some (r, w') →
  events w' = events w ++ tr →
  Invoked i path state ∈ tr →
  ∃ m, matchers w' !! i = Some m ∧ MatchString (pattern m) path = true.
Proof.
  intros HD Htr Hin.
  destruct (Dispatch_traced fuel w r w' HD) as [_ (tr' & He & Hm & _)].
  rewrite He in Htr. apply app_inv_head in Htr. subst tr'.
  exact (Hm _ _ _ Hin).
Qed.


(** X9: whatever the handlers do, [Dispatch] only appends to the
    registries, and every change of the dirty map during the call is
    logged: replaying the transitions logged during the call on the dirty
    map of before gives the dirty map of after. *)
Theorem Dispatch_logs_every_transition fuel w r w' :
  Dispatch fuel w = Some (r, w') →
  matchers w `prefix_of` matchers w' ∧ ignores w `prefix_of` ignores w' ∧
  ∃ tr, events w' = events w ++ tr ∧ states w' = replay tr (states w).
Proof.
  intros HD. by destruct (Dispatch_extends fuel w r w' HD) as [? ? ? _].
Qed.

(** A handler that marks the path it is called for dirty again. *)
Definition remark : Handler := λ path state, HSetState path state (HReturn None).

(** X10: [Dispatch] does not end when a handler marks its own path dirty
    again: with that handler registered for the one dirty path, no number
    of iterations is enough for [Dispatch] to return. *)
Theorem Dispatch_diverges_on_self_marking fuel r path state w :
  matchers w = [Matcher r remark] → MatchString r path = true →
  states w = {[path := state]} → state ≠ Clean →
  Dispatch fuel w = None.
Proof.
  intros Hms Hr Hst Hs. revert w Hms Hst.
  induction fuel as [|fuel IH]; intros w Hms Hst; [done|].
  cbn [Dispatch]. unfold nextDirty. rewrite Hst, map_to_list_singleton.
  change (length [(path, state)]) with 1. rewrite Nat.mod_1_r.
  cbn [lookup list_lookup].
  assert (∀ w0, matchers w0 = matchers w → hasMatcher path w0 = true) as Hhm.
  { intros w0 Hw0. unfold hasMatcher. rewrite Hw0, Hms. simpl. by rewrite Hr. }
  set (w1 := SetState path Clean (next_range w)).
  set (w3 := SetState path state (emit (Invoked 0 path state) w1)).
  assert (Dispatch_path (Dispatch fuel) path state (next_range w)
          = Some (Returns None, w3)) as ->.
  { unfold Dispatch_path. fold w1.
    replace (matchers w1) with [Matcher r remark]
      by (unfold w1; rewrite SetState_matchers; simpl; by rewrite Hms).
    simpl. rewrite Hr. reflexivity. }
  apply IH.
  - unfold w3, w1. rewrite !SetState_matchers. simpl.
    rewrite SetState_matchers. by simpl.
  - unfold w3. rewrite SetState_states, Hhm
      by (unfold w1; simpl; by rewrite SetState_matchers).
    rewrite decide_False by done. simpl.
    unfold w1. rewrite SetState_states, Hhm by done.
    rewrite decide_True by done. simpl.
    rewrite Hst, delete_singleton_eq. apply insert_empty.
Qed.

(** X11: [Watch] and [Dispatch] keep every dirty path registered: if every
    dirty path matches a handler pattern before, so it does after, whatever
    events arrive and whatever the handlers do. *)
Theorem dirty_paths_stay_registered fuel w :
  dirty_registered w →
  (∀ r w', Dispatch fuel w = Some (r, w') → dirty_registered w') ∧
  (∀ inputs res w', Watch fuel inputs w = Some (res, w') → dirty_registered w').
Proof.
  intros Hd. split.
  - intros r w' H. by apply (ext_registered _ _ (Dispatch_extends fuel w r w' H)).
  - intros inputs res w' H.
    by apply (ext_registered _ _ (Watch_extends fuel inputs w res w' H)).
Qed.

(** ** Further properties of the watcher and the registries *)

Lemma watchRecursive_walk_states entries dirs w :
  states (watchRecursive_walk entries dirs w).2 ⊆ states w.
Proof.
  revert dirs w. induction entries as [|e rest IH]; intros dirs w; simpl; [done|].
  destruct (werr e); [done|].
  destruct (negb (wisdir e) || hasIgnore (wpath e) w); [done|].
  assert (states (SetState (wpath e) Clean w) ⊆ states w) as Hs.
  { rewrite SetState_states. destruct (hasMatcher (wpath e) w); [|done].
    rewrite decide_True by done. apply delete_subseteq. }
  destruct (watcher_add _ _); [exact Hs|].
  etrans; [apply IH | exact Hs].
Qed.

Lemma watchRecursive_walk_dirs entries dirs w :
  Forall (λ e, werr e = None ∧ watcher_add (env w) (wpath e) = None) entries →
  (watchRecursive_walk entries dirs w).1
    = (None, dirs ++ (wpath <$>
         filter (λ e, wisdir e && negb (hasIgnore (wpath e) w)) entries)).
Proof.
  intros H. revert dirs w H.
  induction entries as [|e rest IH]; intros dirs w H; simpl.
  - by rewrite app_nil_r.
  - apply Forall_cons in H as [[He Ha] H]. rewrite He.
    destruct (wisdir e) eqn:Hd; simpl.
    + destruct (hasIgnore (wpath e) w) eqn:Hi; simpl.
      * rewrite filter_cons_False by (rewrite Hd, Hi; simpl; tauto). by apply IH.
      * rewrite SetState_env, Ha.
        rewrite filter_cons_True by (by rewrite Hd, Hi).
        rewrite IH.
        -- rewrite fmap_cons, <- app_assoc. simpl. repeat f_equal.
           apply list_filter_iff. intros x. by rewrite SetState_hasIgnore.
        -- eapply Forall_impl; [exact H|]. intros x. by rewrite SetState_env.
    + rewrite filter_cons_False by (rewrite Hd; simpl; tauto). by apply IH.
Qed.

(** X12: when the walk and the watcher report no error, [watchRecursive]
    subscribes the watcher to the directories of the tree that match no
    ignore pattern, exactly those and in the order of the walk, and returns
    nil.  It never marks a path dirty: it only resets directories. *)
Theorem watchRecursive_subscribes dirs dir w :
  Forall (λ e, werr e = None ∧ watcher_add (env w) (wpath e) = None)
    (walk (env w) dir) →
  (watchRecursive dirs dir w).1
    = (None, dirs ++ (wpath <$>
         filter (λ e, wisdir e && negb (hasIgnore (wpath e) w))
           (walk (env w) dir))) ∧
  states (watchRecursive dirs dir w).2 ⊆ states w.
Proof.
  intros H. split.
  - by apply watchRecursive_walk_dirs.
  - apply watchRecursive_walk_states.
Qed.



(** X14: how [Watch] translates a file event: for a path that matches no
    ignore pattern and matches a handler pattern, an event without the
    Create bit marks the path Deleted when it has the Remove bit and Changed
    otherwise, touches no other entry and leaves [Watch] in its loop. *)
Theorem Watch_translates_event fuel name op dirs w :
  hasIgnore name w = false → hasMatcher name w = true →
  N.land op Create = 0%N →
  ∃ w', Watch_loop fuel [Events name op] dirs w = Some (Blocked dirs, w') ∧
        states w' !! name
          = Some (if decide (N.land op Remove ≠ 0%N) then Deleted else Changed) ∧
        ∀ q, q ≠ name → states w' !! q = states w !! q.
Proof.
  intros Hi Hm Hc. simpl. rewrite Hi.
  rewrite (decide_False (P := N.land op Create ≠ 0%N)) by (intros Hne; by apply Hne).
  case_decide; eexists; (split; [reflexivity|]); split.
  - rewrite SetState_states, Hm, decide_False by done. apply lookup_insert_eq.
  - intros q Hq. by apply SetState_states_other.
  - rewrite SetState_states, Hm, decide_False by done. apply lookup_insert_eq.
  - intros q Hq. by apply SetState_states_other.
Qed.

(** An input on which [Watch] makes no system call that can fail. *)
Definition harmless (i : watch_input) : Prop :=
  match i with
  | Errors _ => False
  | Events _ op => N.land op Create = 0%N
  | TimeAfter | Outside _ => True
  end.

(** X15: [Watch] returns an error only for what the watcher and the file
    system report: on timer ticks and on events without the Create bit its
    loop never returns, whatever the handlers return. *)
Theorem Watch_loop_returns_only_system_errors fuel inputs dirs w res w' :
  Forall harmless inputs →
  Watch_loop fuel inputs dirs w = Some (res, w') →
  ∀ e, res ≠ Stopped (Returns e).
Proof.
  intros Hh. revert dirs w.
  induction Hh as [|[|name op|err|g] rest Hi _ IH]; intros dirs w H e; simpl in *.
  - by inversion H.
  - destruct (Dispatch fuel w) as [[[err|v] w1]|]; [by eapply IH| |done].
    by inversion H.
  - destruct (hasIgnore name w); [by eapply IH|].
    rewrite (decide_False (P := N.land op Create ≠ 0%N)) in H
      by (intros Hne; by apply Hne).
    case_decide; by eapply IH.
  - done.
  - by eapply IH.
Qed.

(** X16: [Match] makes paths trackable: once a pattern that compiles is
    registered, [SetState] with a state other than Clean on a path that the
    pattern matches records that state. *)
Theorem Match_then_SetState pat r h path state w :
  Compile pat = inl r → MatchString r path = true → state ≠ Clean →
  (Match pat h w).1 = Returns None ∧
  states (SetState path state (Match pat h w).2) !! path = Some state.
Proof.
  intros Hc Hr Hs. unfold Match, MustCompile. rewrite Hc. simpl. split; [done|].
  rewrite SetState_states. unfold hasMatcher. simpl.
  rewrite hasMatcher_range_app. simpl. rewrite Hr, orb_true_r.
  rewrite decide_False by done. apply lookup_insert_eq.
Qed.

(** X17: [Ignore] hides paths from the walks: once a pattern that compiles
    is registered with [Ignore], [SetStates] leaves the entry of every path
    that the pattern matches as it was, whatever its own pattern and
    state. *)
Theorem Ignore_then_SetStates pat r path pat' state w :
  Compile pat = inl r → MatchString r path = true →
  (Ignore pat w).1 = Returns None ∧
  states (SetStates pat' state (Ignore pat w).2).2 !! path = states w !! path.
Proof.
  intros Hc Hr. unfold Ignore, MustCompile. rewrite Hc. simpl. split; [done|].
  unfold SetStates. destruct (Compile pat'); [|done]. simpl.
  rewrite SetStates_walk_ignored; [done|].
  unfold hasIgnore. simpl. apply hasIgnore_range_true.
  exists r. split; [|done]. apply elem_of_app. right. by left.
Qed.

End Facts.

(** ** Examples *)

#[local] Existing Instance literal_runtime.

Definition start : World := initial example_env.

(** Handlers: one that succeeds, one that fails, one that marks another
    path dirty, and one that marks another path dirty and then fails. *)
Definition succeed : Handler := λ _ _, HReturn None.
Definition fail : Handler := λ _ _, HReturn (Some "boom").
Definition mark_b : Handler := λ _ _, HSetState "b" Changed (HReturn None).
Definition mark_b_fail : Handler :=
  λ _ _, HSetState "b" Changed (HReturn (Some "boom")).

(** [Match] several handlers, then [SetState] several paths. *)
Definition register (hs : list (string * Handler)) (w : World) : World :=
  foldl (λ w ph, (Match ph.1 ph.2 w).2) w hs.

Definition SetState_each (calls : list (string * FileState)) (w : World) : World :=
  foldl (λ w c, SetState c.1 c.2 w) w calls.

(** The world a run ends in, and what is observed of a run. *)
Definition final (o : option (outcome * World)) : World :=
  match o with
  | Some (_, w) => w
  | None => start
  end.

Definition observe {R} (o : option (R * World))
    : option (R * list event * list (string * FileState)) :=
  (λ rw, (rw.1, events rw.2, map_to_list (states rw.2))) <$> o.

Definition w_src : World := register [("src/", succeed)] start.

Definition w_ignore : World :=
  register [("build/x", succeed)] (Ignore "build" start).2.

Definition w_fail_first : World :=
  SetState_each [("a", Changed)] (register [("a", fail); ("a", succeed)] start).

Definition w_fail_second : World :=
  SetState_each [("a", Changed)]
    (register [("a", succeed); ("a", fail); ("a", succeed)] start).

Definition w_two : World :=
  SetState_each [("a", Changed)] (register [("a", succeed); ("a", succeed)] start).

Definition w_mark : World :=
  SetState_each [("a", Changed)] (register [("a", mark_b); ("b", succeed)] start).

Definition w_mark_fail : World :=
  SetState_each [("a", Changed)]
    (register [("a", mark_b_fail); ("b", succeed)] start).

(** C7, at a path that matches no handler pattern. *)
Lemma SetState_unregistered_dropped_witness :
  states (SetState "README" Changed w_src) = states w_src ∧
  SetState "README" Changed w_src = w_src.
Proof.
  apply (SetState_unregistered_dropped "README" w_src).
  repeat constructor.
Defined.

(** C8 as stated fails: [SetState] on a path that matches no handler
    pattern logs nothing. *)
Lemma SetState_unregistered_not_logged :
  hasMatcher "README" w_src = false ∧
  events (SetState "README" Changed w_src) = [] ∧
  stdout (SetState "README" Changed w_src) = [].
Proof. vm_compute. done. Qed.

Lemma SetState_logs_iff_registered_witness :
  events (SetState "src/y" Clean w_src) = events w_src ++ [Logged "src/y" Clean] ∧
  stdout (SetState "src/y" Clean w_src) = stdout (logEvent "src/y" Clean w_src).
Proof.
  apply (proj1 (SetState_logs_iff_registered "src/y" Clean w_src)).
  reflexivity.
Defined.

(** C9 as stated fails: [Match] with a pattern that does not compile
    panics, it does not return an error. *)
Lemma Match_invalid_pattern_not_returned :
  Compile "(" = inr "missing closing )" ∧
  Match "(" succeed start = (Panics "regexp: Compile: missing closing )", start).
Proof. vm_compute. done. Qed.

(** C3 as stated fails: [SetState] on a path that matches an ignore
    pattern and a handler pattern inserts it. *)
Lemma SetState_inserts_ignored_path :
  hasIgnore "build/x" w_ignore = true ∧
  observe (Some ((), SetState "build/x" Changed w_ignore))
    = Some ((), [Logged "build/x" Changed], [("build/x", Changed)]).
Proof. vm_compute. done. Qed.

Lemma ignored_filtered_by_callers_witness :
  (∀ state, state ≠ Clean → hasMatcher "build/x" w_ignore = true →
     states (SetState "build/x" state w_ignore) !! "build/x" = Some state) ∧
  (∀ pat state,
     states (SetStates pat state w_ignore).2 !! "build/x"
       = states w_ignore !! "build/x") ∧
  (∀ dirs dir,
     states (watchRecursive dirs dir w_ignore).2 !! "build/x"
       = states w_ignore !! "build/x") ∧
  (∀ fuel op rest dirs,
     Watch_loop fuel (Events "build/x" op :: rest) dirs w_ignore
       = Watch_loop fuel rest dirs w_ignore).
Proof.
  apply (ignored_filtered_by_callers "build/x" w_ignore).
  reflexivity.
Defined.

(** C2 as stated fails: the first handler of ["a"] returns an error on the
    timer tick, and [Watch] goes on to the next event and stays in its
    loop. *)
Lemma Watch_continues_after_handler_error :
  observe (Dispatch 3 w_fail_first)
    = Some (Returns (Some "boom"),
            [Logged "a" Changed; Logged "a" Clean; Invoked 0 "a" Changed], []) ∧
  observe (Watch 3 [TimeAfter; Events "a" Write_] w_fail_first)
    = Some (Blocked ["."; "build"; "src"],
            [Logged "a" Changed; Logged "a" Clean; Invoked 0 "a" Changed;
             Logged "a" Changed],
            [("a", Changed)]).
Proof. vm_compute. done. Qed.

(** C6, after two calls of [SetState]. *)
Lemma Dispatch_nil_drains_witness :
  states (final (Dispatch 3
    (foldl (λ w c, SetState c.1 c.2 w)
       (register [("a", succeed); ("a", succeed)] start)
       [("a", Deleted); ("a", Changed)]))) = ∅.
Proof.
  apply (Dispatch_nil_drains 3 (register [("a", succeed); ("a", succeed)] start)
           [("a", Deleted); ("a", Changed)]).
  vm_compute. reflexivity.
Defined.

(** C1 as stated fails: the first handler of ["a"] returns an error and
    the second, which matches ["a"] too, is not invoked. *)
Lemma Dispatch_skips_handlers_after_error :
  (HandlersFor (matchers w_fail_first) "a").*1 = [0; 1] ∧
  observe (Dispatch 3 w_fail_first)
    = Some (Returns (Some "boom"),
            [Logged "a" Changed; Logged "a" Clean; Invoked 0 "a" Changed], []).
Proof. vm_compute. done. Qed.

Lemma Dispatch_invokes_matching_in_order_witness :
  ∃ js rest tr,
    (HandlersFor (matchers w_two) "a").*1 = js ++ rest ∧
    events (final (Dispatch_path (Dispatch 2) "a" Changed w_two))
      = events (SetState "a" Clean w_two) ++ tr ∧
    ((λ j, Invoked j "a" Changed) <$> js) `sublist_of` tr ∧
    (Returns None = Returns None → rest = []).
Proof.
  apply (proj2 (Dispatch_invokes_matching_in_order "a" Changed w_two) 2).
  vm_compute. reflexivity.
Defined.

(** C4, at the second of three handlers of ["a"]: the world after the
    first handler, and the world in which the second one fails. *)
Definition w_after_first : World :=
  final (Dispatch_range (Dispatch 2) [Matcher (literal "a") succeed] 0 "a" Changed
           (SetState "a" Clean (next_range w_fail_second))).

Definition w_failed : World :=
  final (exec (Dispatch 2) (fail "a" Changed)
           (emit (Invoked 1 "a" Changed) w_after_first)).

Lemma Dispatch_fail_fast_witness :
  Dispatch 3 w_fail_second = Some (Returns (Some "boom"), w_failed).
Proof.
  apply (Dispatch_fail_fast 3 w_fail_second 2 w_fail_second "a" Changed
           (next_range w_fail_second)
           [Matcher (literal "a") succeed] (Matcher (literal "a") fail)
           [Matcher (literal "a") succeed]
           w_after_first "boom" w_failed).
  - apply reaches_start.
  - vm_compute. reflexivity.
  - vm_compute. reflexivity.
  - vm_compute. reflexivity.
  - vm_compute. reflexivity.
  - vm_compute. reflexivity.
Defined.

Example w_failed_observed :
  observe (Some ((), w_failed))
    = Some ((), [Logged "a" Changed; Logged "a" Clean; Invoked 0 "a" Changed;
                 Invoked 1 "a" Changed], []).
Proof. vm_compute. reflexivity. Qed.

(** C10, with one dirty path and two handlers that call nothing. *)
Lemma Dispatch_terminates_when_quiet_witness :
  ∃ r w', Dispatch 2 w_two = Some (r, w') ∧
          size (states w') ≤ size (states w_two).
Proof.
  apply (Dispatch_terminates_when_quiet 2 w_two).
  - apply (ext_registered _ _ (SetState_extends "a" Changed _)).
    apply dirty_registered_empty. reflexivity.
  - repeat constructor.
  - vm_compute. lia.
Defined.

(** C5 as stated fails: the handler of ["a"] marks ["b"] dirty and returns
    an error; [Dispatch] returns with ["b"] dirty and the handler of ["b"]
    not invoked. *)
Lemma Dispatch_leaves_marked_path_on_error :
  (HandlersFor (matchers w_mark_fail) "b").*1 = [1] ∧
  observe (Dispatch 3 w_mark_fail)
    = Some (Returns (Some "boom"),
            [Logged "a" Changed; Logged "a" Clean; Invoked 0 "a" Changed;
             Logged "b" Changed],
            [("b", Changed)]).
Proof. vm_compute. done. Qed.

(** Why C5 is amended for handlers that only mark.  A handler that marks
    ["b"] dirty and sets it Clean again, or one that calls [Dispatch]
    itself and drops the error it returns, lets the outer [Dispatch] return
    nil with a handler of ["b"] never invoked. *)
Definition mark_b_reset : Handler :=
  λ _ _, HSetState "b" Changed (HSetState "b" Clean (HReturn None)).

Definition mark_b_dispatch : Handler :=
  λ _ _, HSetState "b" Changed (HDispatch (λ _, HReturn None)).

Example marked_then_reset_not_served :
  observe (Dispatch 3
    (SetState_each [("a", Changed)]
       (register [("a", mark_b_reset); ("b", succeed)] start)))
  = Some (Returns None,
          [Logged "a" Changed; Logged "a" Clean; Invoked 0 "a" Changed;
           Logged "b" Changed; Logged "b" Clean], []).
Proof. vm_compute. reflexivity. Qed.

Example nested_Dispatch_error_not_served :
  observe (Dispatch 3
    (SetState_each [("a", Changed)]
       (register [("a", mark_b_dispatch); ("b", fail); ("b", succeed)] start)))
  = Some (Returns None,
          [Logged "a" Changed; Logged "a" Clean; Invoked 0 "a" Changed;
           Logged "b" Changed; Logged "b" Clean; Invoked 1 "b" Changed], []).
Proof. vm_compute. reflexivity. Qed.

Lemma Dispatch_serves_marked_paths_witness :
  ∃ j state',
    2 < j ∧
    [Logged "a" Clean; Invoked 0 "a" Changed; Logged "b" Changed;
     Logged "b" Clean; Invoked 1 "b" Changed] !! j
      = Some (Invoked 1 "b" state').
Proof.
  apply (Dispatch_serves_marked_paths 3 w_mark (final (Dispatch 3 w_mark))
           [Logged "a" Clean; Invoked 0 "a" Changed; Logged "b" Changed;
            Logged "b" Clean; Invoked 1 "b" Changed]
           2 "b" Changed) with (m := Matcher (literal "b") succeed).
  - apply Forall_cons; split; [intros ? ?; split; [discriminate | exact I]|].
    apply Forall_cons; split; [intros ? ?; exact I | apply Forall_nil_2].
  - vm_compute. reflexivity.
  - vm_compute. reflexivity.
  - reflexivity.
  - discriminate.
  - reflexivity.
  - reflexivity.
Defined.

(** ** Instances of the further properties *)

(** The world a Watch loop is left in. *)
Definition observe_world (o : option (watch_result * World))
    : option (outcome * World) :=
  (λ rw, (Returns None, rw.2)) <$> o.

Lemma SetState_overrides_witness :
  states (SetState "src/y" Deleted (SetState "src/y" Changed w_src))
    = states (SetState "src/y" Deleted w_src) ∧
  states (SetState "src/y" Deleted w_src) !! "src/y"
    = (if decide (Deleted = Clean) then None else Some Deleted) ∧
  ∀ q, q ≠ "src/y" → states (SetState "src/y" Deleted w_src) !! q = states w_src !! q.
Proof.
  apply (SetState_overrides "src/y" Changed Deleted w_src). reflexivity.
Defined.

Lemma SetState_Clean_absent_witness :
  states (SetState "src/y" Clean w_src) = states w_src.
Proof. apply (SetState_Clean_absent "src/y" w_src). reflexivity. Defined.

Lemma SetStates_marks_exactly_witness :
  (SetStates "" Changed w_src).1 = None ∧
  (marked (literal "") (walk (env w_src) ".") w_src "src/y" →
   states (SetStates "" Changed w_src).2 !! "src/y"
     = (if decide (Changed = Clean) then None else Some Changed)) ∧
  (¬ marked (literal "") (walk (env w_src) ".") w_src "src/y" →
   states (SetStates "" Changed w_src).2 !! "src/y" = states w_src !! "src/y").
Proof.
  apply (SetStates_marks_exactly "" (literal "") Changed w_src "src/y").
  - reflexivity.
  - repeat constructor.
Defined.

(** A tree in which the walk fails at a directory that cannot be read. *)
Definition unreadable_env : Env := {|
  walk := λ _,
    [WalkEntry "." true None; WalkEntry "a" false None;
     WalkEntry "secret" true (Some "permission denied");
     WalkEntry "z" false None];
  stat := λ _, inl true;
  watcher_add := λ _, None;
  new_watcher := None;
|}.

Definition w_unreadable : World :=
  register [("", succeed)] (initial unreadable_env).

Lemma SetStates_stops_at_walk_error_witness :
  SetStates "" Changed w_unreadable
    = (Some "permission denied",
       (SetStates_walk (literal "") Changed
          [WalkEntry "." true None; WalkEntry "a" false None] w_unreadable).2).
Proof.
  apply (SetStates_stops_at_walk_error "" (literal "") Changed w_unreadable
           [WalkEntry "." true None; WalkEntry "a" false None]
           (WalkEntry "secret" true (Some "permission denied"))
           [WalkEntry "z" false None] "permission denied").
  - reflexivity.
  - reflexivity.
  - repeat constructor.
  - reflexivity.
Defined.

Lemma Dispatch_nothing_dirty_witness :
  Dispatch 1 w_src = Some (Returns None, next_range w_src).
Proof. apply (Dispatch_nothing_dirty 0 w_src). reflexivity. Defined.

Lemma Dispatch_invokes_only_matching_witness :
  ∃ m, matchers (final (Dispatch 3 w_two)) !! 1 = Some m ∧
       MatchString (pattern m) "a" = true.
Proof.
  apply (Dispatch_invokes_only_matching 3 w_two (Returns None)
           (final (Dispatch 3 w_two))
           [Logged "a" Clean; Invoked 0 "a" Changed; Invoked 1 "a" Changed]
           1 "a" Changed).
  - vm_compute. reflexivity.
  - vm_compute. reflexivity.
  - repeat constructor.
Defined.


Lemma Dispatch_logs_every_transition_witness :
  matchers w_mark_fail `prefix_of` matchers (final (Dispatch 3 w_mark_fail)) ∧
  ignores w_mark_fail `prefix_of` ignores (final (Dispatch 3 w_mark_fail)) ∧
  ∃ tr, events (final (Dispatch 3 w_mark_fail)) = events w_mark_fail ++ tr ∧
        states (final (Dispatch 3 w_mark_fail)) = replay tr (states w_mark_fail).
Proof.
  apply (Dispatch_logs_every_transition 3 w_mark_fail (Returns (Some "boom"))).
  vm_compute. reflexivity.
Defined.

Definition w_remark : World :=
  SetState_each [("a", Changed)] (register [("a", remark)] start).

Lemma Dispatch_diverges_on_self_marking_witness : Dispatch 5 w_remark = None.
Proof.
  apply (Dispatch_diverges_on_self_marking 5 (literal "a") "a" Changed w_remark).
  - reflexivity.
  - reflexivity.
  - vm_compute. reflexivity.
  - discriminate.
Defined.

Lemma dirty_paths_stay_registered_witness :
  (∀ r w', Dispatch 3 w_mark = Some (r, w') → dirty_registered w') ∧
  (∀ inputs res w', Watch 3 inputs w_mark = Some (res, w') → dirty_registered w').
Proof.
  apply (dirty_paths_stay_registered 3 w_mark).
  apply (ext_registered _ _ (SetState_extends "a" Changed _)).
  apply dirty_registered_empty. reflexivity.
Defined.

Lemma watchRecursive_subscribes_witness :
  (watchRecursive [] "." w_ignore).1
    = (None, [] ++ (wpath <$>
         filter (λ e, wisdir e && negb (hasIgnore (wpath e) w_ignore))
           (walk (env w_ignore) "."))) ∧
  states (watchRecursive [] "." w_ignore).2 ⊆ states w_ignore.
Proof.
  apply (watchRecursive_subscribes [] "." w_ignore). repeat constructor.
Defined.

Example watchRecursive_skips_ignored :
  (watchRecursive [] "." w_ignore).1 = (None, ["."; "src"]).
Proof. vm_compute. reflexivity. Qed.




Lemma Watch_translates_event_witness :
  ∃ w', Watch_loop 3 [Events "src/y" (N.lor Remove Write_)] ["."] w_src
          = Some (Blocked ["."], w') ∧
        states w' !! "src/y"
          = Some (if decide (N.land (N.lor Remove Write_) Remove ≠ 0%N)
                  then Deleted else Changed) ∧
        ∀ q, q ≠ "src/y" → states w' !! q = states w_src !! q.
Proof.
  apply (Watch_translates_event 3 "src/y" (N.lor Remove Write_) ["."] w_src);
    reflexivity.
Defined.

Lemma Watch_loop_returns_only_system_errors_witness :
  Blocked ["."] ≠ Stopped (Returns (Some "boom")).
Proof.
  apply (Watch_loop_returns_only_system_errors 3
           [TimeAfter; Events "a" Write_; Events "a" Remove] ["."] w_fail_first
           (Blocked ["."])
           (final (observe_world (Watch_loop 3
              [TimeAfter; Events "a" Write_; Events "a" Remove] ["."]
              w_fail_first)))).
  - repeat constructor.
  - vm_compute. reflexivity.
Defined.

Lemma Match_then_SetState_witness :
  (Match "src/" succeed start).1 = Returns None ∧
  states (SetState "src/y" Deleted (Match "src/" succeed start).2) !! "src/y"
    = Some Deleted.
Proof.
  apply (Match_then_SetState "src/" (literal "src/") succeed "src/y" Deleted start).
  - reflexivity.
  - reflexivity.
  - discriminate.
Defined.

Lemma Ignore_then_SetStates_witness :
  (Ignore "src" w_src).1 = Returns None ∧
  states (SetStates "" Changed (Ignore "src" w_src).2).2 !! "src/y"
    = states w_src !! "src/y".
Proof.
  apply (Ignore_then_SetStates "src" (literal "src") "src/y" "" Changed w_src);
    reflexivity.
Defined.

End States.

(** * The trigger variant (gw.go) *)
Module Triggers.

(** A registered func is user code; [buildFunc] is
    [func(string, bool) error].  As in [States], what matters is the calls
    it makes back into the package and the error it returns. *)
Inductive hprog :=
  | HReturn (err : option error)
  | HPanic (v : error)
  | HTrigger (pattern : string) (deleted : bool) (k : option error → hprog)
  | HMatch (pattern : string) (h : string → bool → hprog) (k : hprog)
  | HIgnore (pattern : string) (k : hprog)
  | HReadEnv (k : Env → hprog)
  | HWriteEnv (g : Env → Env) (k : hprog).

Definition buildFunc : Type := string → bool → hprog.

(** A call of the registered func at position [i] of [matchers]. *)
Inductive event :=
  | Invoked (i : nat) (path : string) (deleted : bool).

Section Definitions.
Context `{RT : Runtime}.

Record matcher := Matcher {
  pattern : Regexp;
  f : buildFunc;
}.

Record World := {
  matchers : list matcher;
  ignores : list Regexp;
  env : Env;
  stdout : list string;
  events : list event;
}.

Definition initial (e : Env) : World :=
  {| matchers := []; ignores := []; env := e; stdout := []; events := [] |}.

Definition set_matchers (ms : list matcher) (w : World) : World :=
  {| matchers := ms; ignores := ignores w; env := env w;
     stdout := stdout w; events := events w |}.

Definition set_ignores (rs : list Regexp) (w : World) : World :=
  {| matchers := matchers w; ignores := rs; env := env w;
     stdout := stdout w; events := events w |}.

Definition set_env (e : Env) (w : World) : World :=
  {| matchers := matchers w; ignores := ignores w; env := e;
     stdout := stdout w; events := events w |}.

Definition println (line : string) (w : World) : World :=
  {| matchers := matchers w; ignores := ignores w; env := env w;
     stdout := stdout w ++ [line]; events := events w |}.

Definition emit (e : event) (w : World) : World :=
  {| matchers := matchers w; ignores := ignores w; env := env w;
     stdout := stdout w; events := events w ++ [e] |}.

Definition Match (pat : string) (h : buildFunc) (w : World) : outcome * World :=
  match MustCompile pat with
  | inl r => (Returns None, set_matchers (matchers w ++ [Matcher r h]) w)
  | inr v => (Panics v, w)
  end.

Definition Ignore (pat : string) (w : World) : outcome * World :=
  match MustCompile pat with
  | inl r => (Returns None, set_ignores (ignores w ++ [r]) w)
  | inr v => (Panics v, w)
  end.

(** [findMatcher]: the first matcher whose pattern matches, with its
    position, or [None] for nil. *)
Fixpoint findMatcher_range (i : nat) (ms : list matcher) (path : string)
    : option (nat * matcher) :=
  match ms with
  | [] => None
  | m :: ms' =>
      if MatchString (pattern m) path then Some (i, m)
      else findMatcher_range (S i) ms' path
  end.

Definition findMatcher (path : string) (w : World) : option (nat * matcher) :=
  findMatcher_range 0 (matchers w) path.

Fixpoint shouldIgnore_range (rs : list Regexp) (path : string) : bool :=
  match rs with
  | [] => false
  | v :: rs' => if MatchString v path then true else shouldIgnore_range rs' path
  end.

Definition shouldIgnore (path : string) (w : World) : bool :=
  shouldIgnore_range (ignores w) path.

(** Running the body of a registered func; [T] is [Trigger]. *)
Fixpoint exec (T : string → bool → World → option (outcome * World))
    (p : hprog) (w : World) : option (outcome * World) :=
  match p with
  | HReturn err => Some (Returns err, w)
  | HPanic v => Some (Panics v, w)
  | HTrigger pat deleted k =>
      match T pat deleted w with
      | None => None
      | Some (Returns err, w') => exec T (k err) w'
      | Some (Panics v, w') => Some (Panics v, w')
      end
  | HMatch pat h k =>
      match Match pat h w with
      | (Returns _, w') => exec T k w'
      | (Panics v, w') => Some (Panics v, w')
      end
  | HIgnore pat k =>
      match Ignore pat w with
      | (Returns _, w') => exec T k w'
      | (Panics v, w') => Some (Panics v, w')
      end
  | HReadEnv k => exec T (k (env w)) w
  | HWriteEnv g k => exec T k (set_env (g (env w)) w)
  end.

(** The callback of [Trigger], over the calls [filepath.Walk] makes (the
    listing is the one of the moment the walk starts). *)
Fixpoint Trigger_walk (T : string → bool → World → option (outcome * World))
    (r : Regexp) (deleted : bool) (entries : list walk_entry) (w : World)
    : option (outcome * World) :=
  match entries with
  | [] => Some (Returns None, w)
  | e :: rest =>
      match werr e with
      | Some err => Some (Returns (Some err), w)
      | None =>
          if negb (MatchString r (wpath e)) || shouldIgnore (wpath e) w
          then Trigger_walk T r deleted rest w
          else
            match findMatcher (wpath e) w with
            | None => Trigger_walk T r deleted rest w
            | Some (i, m) =>
                let w1 := println ("triggering " +:+ wpath e) w in
                match exec T (f m (wpath e) deleted)
                        (emit (Invoked i (wpath e) deleted) w1) with
                | Some (Returns None, w') => Trigger_walk T r deleted rest w'
                | other => other
                end
            end
      end
  end.

(** [Trigger]; one unit of fuel per nested call. *)
Fixpoint Trigger (fuel : nat) (pat : string) (deleted : bool) (w : World)
    : option (outcome * World) :=
  match fuel with
  | 0 => None
  | S fuel' =>
      match Compile pat with
      | inr err => Some (Returns (Some err), w)
      | inl r => Trigger_walk (Trigger fuel') r deleted (walk (env w) ".") w
      end
  end.

Fixpoint watchRecursive_walk (entries : list walk_entry) (dirs : list string)
    (w : World) : option error * list string * World :=
  match entries with
  | [] => (None, dirs, w)
  | e :: rest =>
      match werr e with
      | Some err => (Some err, dirs, w)
      | None =>
          if negb (wisdir e) || shouldIgnore (wpath e) w
          then watchRecursive_walk rest dirs w
          else
            let w1 := println ("watching " +:+ wpath e +:+ "...") w in
            match watcher_add (env w1) (wpath e) with
            | Some err => (Some err, dirs, w1)
            | None => watchRecursive_walk rest (dirs ++ [wpath e]) w1
            end
      end
  end.

Definition watchRecursive (dirs : list string) (dir : string) (w : World)
    : option error * list string * World :=
  watchRecursive_walk (walk (env w) dir) dirs w.

(** The goroutine of [Watch] and the [return <-errCh] that waits for it.
    This [select] has no timer: a [TimeAfter] in the input is skipped. *)
Fixpoint Watch_loop (fuel : nat) (inputs : list watch_input)
    (dirs : list string) (w : World) : option (watch_result * World) :=
  match inputs with
  | [] => Some (Blocked dirs, w)
  | TimeAfter :: rest => Watch_loop fuel rest dirs w
  | Events name op :: rest =>
      if shouldIgnore name w then Watch_loop fuel rest dirs w
      else
        let created :=
          if decide (N.land op Create ≠ 0%N) then
            match stat (env w) name with
            | inr err => (Some err, dirs, w)
            | inl isdir =>
                if isdir then watchRecursive dirs name w else (None, dirs, w)
            end
          else (None, dirs, w) in
        match created with
        | (Some err, dirs', w') => Watch_loop fuel rest dirs' (println err w')
        | (None, dirs', w') =>
            let pat := "^" +:+ name +:+ "$" in
            match Trigger fuel pat (bool_decide (N.land op Remove ≠ 0%N)) w' with
            | None => None
            | Some (Returns (Some err), w'') =>
                Watch_loop fuel rest dirs' (println err w'')
            | Some (Returns None, w'') => Watch_loop fuel rest dirs' w''
            | Some (Panics v, w'') => Some (Stopped (Panics v), w'')
            end
        end
  | Errors err :: rest => Some (Stopped (Returns err), w)
  | Outside g :: rest => Watch_loop fuel rest dirs (set_env (g (env w)) w)
  end.

Definition Watch (fuel : nat) (inputs : list watch_input) (w : World)
    : option (watch_result * World) :=
  match new_watcher (env w) with
  | Some err => Some (Stopped (Returns (Some err)), w)
  | None =>
      match watchRecursive [] "." w with
      | (Some err, _, w') => Some (Stopped (Returns (Some err)), w')
      | (None, dirs, w') => Watch_loop fuel inputs dirs w'
      end
  end.

End Definitions.

Section Facts.
Context `{RT : Runtime}.
Implicit Types (w : World) (ms : list matcher).

(** [findMatcher] returns the first registered matcher that matches. *)
Lemma findMatcher_range_first i ms path j m :
  findMatcher_range i ms path = Some (j, m) →
  ∃ k, j = i + k ∧ ms !! k = Some m ∧ MatchString (pattern m) path = true ∧
       ∀ k' m', k' < k → ms !! k' = Some m' → MatchString (pattern m') path = false.
Proof.
  revert i. induction ms as [|m0 ms IH]; intros i H; simpl in H; [done|].
  destruct (MatchString (pattern m0) path) eqn:E.
  - inversion H; subst. exists 0. split_and!; [lia|done|done|]. intros; lia.
  - destruct (IH _ H) as (k & -> & Hk & Hm & Hfirst).
    exists (S k). split_and!; [lia|done|done|].
    intros [|k'] m' Hlt Hk'; simpl in Hk'.
    + by inversion Hk'; subst.
    + apply (Hfirst k' m'); [lia|done].
Qed.

(** In the trigger variant a path is handed to the first registered func
    whose pattern matches it, and to no other. *)
Lemma Trigger_walk_first_only T r deleted e rest w i m :
  werr e = None → MatchString r (wpath e) = true →
  shouldIgnore (wpath e) w = false →
  findMatcher (wpath e) w = Some (i, m) →
  Trigger_walk T r deleted (e :: rest) w =
  match exec T (f m (wpath e) deleted)
          (emit (Invoked i (wpath e) deleted)
             (println ("triggering " +:+ wpath e) w)) with
  | Some (Returns None, w') => Trigger_walk T r deleted rest w'
  | other => other
  end.
Proof. intros He Hr Hi Hf. simpl. by rewrite He, Hr, Hi, Hf. Qed.

(** [Match] of the trigger variant panics on a pattern that does not
    compile, as the one of the state-tracking variant does. *)
Lemma Trigger_Match_panics pat h w e :
  Compile pat = inr e →
  Match pat h w = (Panics ("regexp: Compile: " +:+ e), w).
Proof. intros H. unfold Match, MustCompile. by rewrite H. Qed.

(** [Watch] of the trigger variant prints the error that [Trigger] returns
    and goes on with the next event. *)
Lemma Trigger_Watch_prints_error fuel name op rest dirs w err w' :
  shouldIgnore name w = false → N.land op Create = 0%N →
  Trigger fuel ("^" +:+ name +:+ "$") (bool_decide (N.land op Remove ≠ 0%N)) w
    = Some (Returns (Some err), w') →
  Watch_loop fuel (Events name op :: rest) dirs w =
  Watch_loop fuel rest dirs (println err w').
Proof.
  intros Hi Hc HT. simpl. rewrite Hi.
  rewrite decide_False by (intros Hne; by apply Hne).
  by rewrite HT.
Qed.

(** ** Further properties of the trigger variant *)

Lemma findMatcher_range_None i ms path :
  findMatcher_range i ms path = None ↔
  Forall (λ m, MatchString (pattern m) path = false) ms.
Proof.
  revert i. induction ms as [|m ms IH]; intros i; simpl.
  - split; [constructor|done].
  - destruct (MatchString (pattern m) path) eqn:E.
    + split; [done|]. intros H. inversion H; congruence.
    + rewrite IH. split; [by constructor|]. intros H. by inversion H.
Qed.

Lemma findMatcher_spec path w :
  match findMatcher path w with
  | Some (i, m) =>
      matchers w !! i = Some m ∧ MatchString (pattern m) path = true ∧
      ∀ k m', k < i → matchers w !! k = Some m' →
              MatchString (pattern m') path = false
  | None => Forall (λ m, MatchString (pattern m) path = false) (matchers w)
  end.
Proof.
  unfold findMatcher. destruct (findMatcher_range 0 (matchers w) path)
    as [[i m]|] eqn:H.
  - destruct (findMatcher_range_first _ _ _ _ _ H) as (k & -> & ? & ? & ?).
    done.
  - by apply findMatcher_range_None in H.
Qed.

(** X18: [findMatcher] returns the first registered matcher whose pattern
    matches the path (every matcher registered before it does not match),
    and nil exactly when no registered pattern matches. *)
Theorem findMatcher_first_match path w :
  match findMatcher path w with
  | Some (i, m) =>
      matchers w !! i = Some m ∧ MatchString (pattern m) path = true ∧
      ∀ k m', k < i → matchers w !! k = Some m' →
              MatchString (pattern m') path = false
  | None => Forall (λ m, MatchString (pattern m) path = false) (matchers w)
  end.
Proof. apply findMatcher_spec. Qed.

Definition trigger_line (e : event) : string :=
  match e with
  | Invoked _ path _ => "triggering " +:+ path
  end.

(** A call in the trace is of the first registered func whose pattern
    matches the path, on a path that the ignore patterns [rs] do not
    match. *)
Definition call_ok (ms : list matcher) (rs : list Regexp) (e : event) : Prop :=
  match e with
  | Invoked i path _ =>
      shouldIgnore_range rs path = false ∧
      ∃ m, ms !! i = Some m ∧ MatchString (pattern m) path = true ∧
           ∀ k m', k < i → ms !! k = Some m' →
                   MatchString (pattern m') path = false
  end.

Definition traced (w w' : World) : Prop :=
  matchers w `prefix_of` matchers w' ∧ ignores w `prefix_of` ignores w' ∧
  ∃ tr, events w' = events w ++ tr ∧
        Forall (call_ok (matchers w') (ignores w)) tr ∧
        stdout w' = stdout w ++ (trigger_line <$> tr).

Definition tracing (T : string → bool → World → option (outcome * World)) : Prop :=
  ∀ pat deleted w r w', T pat deleted w = Some (r, w') → traced w w'.

Lemma shouldIgnore_range_app rs rs' path :
  shouldIgnore_range (rs ++ rs') path
    = shouldIgnore_range rs path || shouldIgnore_range rs' path.
Proof.
  induction rs as [|v rs IH]; simpl; [done|]. by destruct (MatchString v path).
Qed.

Lemma call_ok_weaken ms ms' rs rs' e :
  ms `prefix_of` ms' → rs `prefix_of` rs' →
  call_ok ms rs' e → call_ok ms' rs e.
Proof.
  intros Hm [rs2 ->] H. destruct e as [i path d].
  destruct H as (Hi & m & Hlk & Hmatch & Hfirst).
  rewrite shouldIgnore_range_app in Hi. apply orb_false_iff in Hi as [Hi _].
  split; [done|]. exists m. split_and!; [by eapply prefix_lookup_Some|done|].
  intros k m' Hk Hk'. apply (Hfirst k m' Hk).
  destruct Hm as [ms2 ->]. apply lookup_lt_Some in Hlk.
  rewrite lookup_app_l in Hk' by lia. done.
Qed.

Lemma Trigger_traced_refl w : traced w w.
Proof.
  split_and!; [done..|]. exists []. by rewrite !app_nil_r.
Qed.

Lemma Trigger_traced_trans w1 w2 w3 : traced w1 w2 → traced w2 w3 → traced w1 w3.
Proof.
  intros (Hm1 & Hi1 & tr1 & He1 & Hc1 & Ho1) (Hm2 & Hi2 & tr2 & He2 & Hc2 & Ho2).
  split_and!; [by etrans..|]. exists (tr1 ++ tr2). split_and!.
  - by rewrite He2, He1, app_assoc.
  - apply Forall_app. split.
    + eapply Forall_impl; [exact Hc1|]. intros e. by apply call_ok_weaken.
    + eapply Forall_impl; [exact Hc2|]. intros e. by apply call_ok_weaken.
  - by rewrite Ho2, Ho1, fmap_app, app_assoc.
Qed.

Lemma Trigger_traced_silent w w' :
  matchers w `prefix_of` matchers w' → ignores w `prefix_of` ignores w' →
  events w' = events w → stdout w' = stdout w → traced w w'.
Proof.
  intros Hm Hi He Ho. split_and!; [done..|]. exists []. by rewrite !app_nil_r.
Qed.

Lemma Trigger_exec_traced T p : tracing T → ∀ w r w', exec T p w = Some (r, w') → traced w w'.
Proof.
  intros HT. induction p as [err|v|pat d k IH|pat h _ k IH|pat k IH|k IH|g k IH];
    intros w r w' Hex; simpl in Hex.
  - inversion Hex; subst. apply Trigger_traced_refl.
  - inversion Hex; subst. apply Trigger_traced_refl.
  - destruct (T pat d w) as [[[err|v] w1]|] eqn:HTw; [| |done].
    + eapply Trigger_traced_trans; [by eapply HT | by eapply IH].
    + inversion Hex; subst. by eapply HT.
  - unfold Match in Hex. destruct (MustCompile pat) as [r0|v].
    + eapply Trigger_traced_trans; [|by eapply IH].
      apply Trigger_traced_silent; simpl; [by eexists|done..].
    + inversion Hex; subst. apply Trigger_traced_refl.
  - unfold Ignore in Hex. destruct (MustCompile pat) as [r0|v].
    + eapply Trigger_traced_trans; [|by eapply IH].
      apply Trigger_traced_silent; simpl; [done|by eexists|done..].
    + inversion Hex; subst. apply Trigger_traced_refl.
  - by eapply IH.
  - eapply Trigger_traced_trans; [|by eapply IH]. by apply Trigger_traced_silent.
Qed.

Lemma Trigger_walk_traced T r deleted entries w res w' :
  tracing T →
  Trigger_walk T r deleted entries w = Some (res, w') → traced w w'.
Proof.
  intros HT. revert w. induction entries as [|e rest IH]; intros w H; simpl in H.
  - inversion H; subst. apply Trigger_traced_refl.
  - destruct (werr e); [inversion H; subst; apply Trigger_traced_refl|].
    destruct (MatchString r (wpath e)); simpl in H; [|by eapply IH].
    destruct (shouldIgnore (wpath e) w) eqn:Hi; [by eapply IH|].
    pose proof (findMatcher_spec (wpath e) w) as Hf.
    destruct (findMatcher (wpath e) w) as [[i m]|]; [|by eapply IH].
    set (w1 := emit (Invoked i (wpath e) deleted)
                 (println ("triggering " +:+ wpath e) w)) in *.
    assert (traced w w1) as H1.
    { split_and!; [done..|]. exists [Invoked i (wpath e) deleted]. simpl.
      split_and!; [done| |done]. apply Forall_singleton. split; [done|].
      by exists m. }
    destruct (exec T (f m (wpath e) deleted) w1) as [[r1 w2]|] eqn:Hex; [|done].
    pose proof (Trigger_traced_trans _ _ _ H1 (Trigger_exec_traced T _ HT _ _ _ Hex)) as H2.
    destruct r1 as [[err|]|v]; [by inversion H; subst| |by inversion H; subst].
    eapply Trigger_traced_trans; [exact H2 | by eapply IH].
Qed.

Lemma Trigger_traced fuel : tracing (Trigger fuel).
Proof.
  induction fuel as [|fuel IH]; intros pat deleted w r w' H; simpl in H; [done|].
  destruct (Compile pat) as [r0|err].
  - by eapply Trigger_walk_traced.
  - inversion H; subst. apply Trigger_traced_refl.
Qed.

(** X19: every call that [Trigger] makes, nested calls included, is of the
    first registered func whose pattern matches the path, and the path
    matches none of the ignore patterns registered when [Trigger] was
    called. *)
Theorem Trigger_calls_first_unignored fuel pat deleted w r w' tr i path d :
  Trigger fuel pat deleted w = Some (r, w') →
  events w' = events w ++ tr →
  Invoked i path d ∈ tr →
  shouldIgnore path w = false ∧
  ∃ m, matchers w' !! i = Some m ∧ MatchString (pattern m) path = true ∧
       ∀ k m', k < i → matchers w' !! k = Some m' →
               MatchString (pattern m') path = false.
Proof.
  intros HT Htr Hin.
  destruct (Trigger_traced fuel pat deleted w r w' HT)
    as (_ & _ & tr' & He & Hc & _).
  rewrite He in Htr. apply app_inv_head in Htr. subst tr'.
  rewrite Forall_forall in Hc. exact (Hc _ Hin).
Qed.

(** X20: [Trigger] prints one line, ["triggering"] and the path, for each
    call it makes, in the order of the calls, and nothing else. *)
Theorem Trigger_prints_each_call fuel pat deleted w r w' tr :
  Trigger fuel pat deleted w = Some (r, w') →
  events w' = events w ++ tr →
  stdout w' = stdout w ++ (trigger_line <$> tr).
Proof.
  intros HT Htr.
  destruct (Trigger_traced fuel pat deleted w r w' HT)
    as (_ & _ & tr' & He & _ & Ho).
  rewrite He in Htr. apply app_inv_head in Htr. by subst tr'.
Qed.



(** X22: once it has subscribed to the tree, [Watch] of the trigger
    variant returns an error only when the watcher's Errors channel
    delivers one: errors of [os.Stat], of [watchRecursive] and of [Trigger]
    are printed and the loop goes on. *)
Theorem Trigger_Watch_returns_only_watcher_errors fuel inputs dirs w e w' :
  Watch_loop fuel inputs dirs w = Some (Stopped (Returns e), w') →
  Errors e ∈ inputs.
Proof.
  revert dirs w. induction inputs as [|[|name op|err|g] rest IH];
    intros dirs w H; simpl in H.
  - by inversion H.
  - right. by eapply IH.
  - right. destruct (shouldIgnore name w); [by eapply IH|].
    destruct (if decide (N.land op Create ≠ 0%N)
              then match stat (env w) name with
                   | inl true => watchRecursive dirs name w
                   | inl false => (None, dirs, w)
                   | inr err => (Some err, dirs, w)
                   end
              else (None, dirs, w)) as [[[err|] dirs1] w1]; [by eapply IH|].
    destruct (Trigger fuel _ _ w1) as [[[[err|]|v] w2]|];
      [by eapply IH|by eapply IH|done|done].
  - inversion H; subst. by left.
  - right. by eapply IH.
Qed.

(** A func body that never calls [Trigger], nor do the funcs it
    registers. *)
Fixpoint leaf (p : hprog) : Prop :=
  match p with
  | HReturn _ | HPanic _ => True
  | HTrigger _ _ _ => False
  | HMatch _ h k => (∀ path deleted, leaf (h path deleted)) ∧ leaf k
  | HIgnore _ k => leaf k
  | HReadEnv k => ∀ e, leaf (k e)
  | HWriteEnv _ k => leaf k
  end.

Definition leaf_funcs (ms : list matcher) : Prop :=
  Forall (λ m, ∀ path deleted, leaf (f m path deleted)) ms.

Lemma exec_leaf T p w :
  leaf p → leaf_funcs (matchers w) →
  ∃ r w', exec T p w = Some (r, w') ∧ leaf_funcs (matchers w').
Proof.
  revert w. induction p as [err|v|pat d k IH|pat h _ k IH|pat k IH|k IH|g k IH];
    intros w Hp Hw; simpl in *.
  - by eauto.
  - by eauto.
  - done.
  - destruct Hp as [Hh Hp]. unfold Match. destruct (MustCompile pat) as [r0|v].
    + apply IH; [done|]. simpl. apply Forall_app. split; [done|].
      by apply Forall_singleton.
    + by eauto.
  - unfold Ignore. destruct (MustCompile pat) as [r0|v]; [by apply IH|by eauto].
  - by apply IH.
  - by apply IH.
Qed.

Lemma findMatcher_range_elem i ms path j m :
  findMatcher_range i ms path = Some (j, m) → m ∈ ms.
Proof.
  revert i. induction ms as [|m0 ms IH]; intros i H; simpl in H; [done|].
  destruct (MatchString (pattern m0) path).
  - inversion H; subst. by left.
  - right. by eapply IH.
Qed.

Lemma Trigger_walk_leaf T r deleted entries w :
  leaf_funcs (matchers w) →
  ∃ res w', Trigger_walk T r deleted entries w = Some (res, w') ∧
            leaf_funcs (matchers w').
Proof.
  revert w. induction entries as [|e rest IH]; intros w Hw; simpl.
  - by eauto.
  - destruct (werr e); [by eauto|].
    destruct (negb (MatchString r (wpath e)) || shouldIgnore (wpath e) w);
      [by apply IH|].
    destruct (findMatcher (wpath e) w) as [[i m]|] eqn:Hf; [|by apply IH].
    assert (∀ path d, leaf (f m path d)) as Hm.
    { unfold leaf_funcs in Hw. rewrite Forall_forall in Hw. apply Hw.
      by eapply findMatcher_range_elem. }
    destruct (exec_leaf T (f m (wpath e) deleted)
                (emit (Invoked i (wpath e) deleted)
                   (println ("triggering " +:+ wpath e) w)) (Hm _ _) Hw)
      as (r1 & w1 & -> & Hw1).
    destruct r1 as [[err|]|v]; [by eauto|by apply IH|by eauto].
Qed.

(** X23: when no registered func calls [Trigger] itself, [Trigger]
    terminates: the walk over the tree is all it does, with no nested
    call. *)
Theorem Trigger_terminates_without_nested pat deleted w :
  leaf_funcs (matchers w) →
  ∃ r w', Trigger 1 pat deleted w = Some (r, w').
Proof.
  intros Hw. simpl. destruct (Compile pat) as [r0|err]; [|by eauto].
  destruct (Trigger_walk_leaf (Trigger 0) r0 deleted (walk (env w) ".") w Hw)
    as (res & w' & H & _).
  by eauto.
Qed.

(** X29: [Trigger] does not end when the func of a path calls [Trigger]
    again with a pattern that reaches the same path first: whatever [k] does
    with the result, the calls nest without bound and none returns. *)
Theorem Trigger_diverges_on_self_trigger fuel pat r r' k e post deleted w :
  Compile pat = inl r →
  walk (env w) "." = e :: post → werr e = None →
  MatchString r (wpath e) = true →
  ignores w = [] →
  matchers w = [Matcher r' (λ _ d, HTrigger pat d k)] →
  MatchString r' (wpath e) = true →
  Trigger fuel pat deleted w = None.
Proof.
  intros Hc Hwalk He Hr Hi Hm Hr'. revert w Hwalk Hi Hm.
  induction fuel as [|fuel IH]; intros w Hwalk Hi Hm; [done|].
  simpl. rewrite Hc, Hwalk. simpl. rewrite He, Hr. simpl.
  unfold shouldIgnore, findMatcher. rewrite Hi, Hm. simpl. rewrite Hr'.
  cbn [f exec]. by rewrite IH.
Qed.

End Facts.

#[local] Existing Instance literal_runtime.

(** Two funcs registered for ["src"], the first of which fails. *)
Definition w_two : World :=
  (Match "src" (λ _ _, HReturn None)
     (Match "src/" (λ _ _, HReturn (Some "boom")) (initial example_env)).2).2.

(** The walk reaches ["src"], which only the second pattern matches, then
    ["src/y"], which both match: the first func alone is called on it. *)
Example Trigger_calls_first_matcher_only :
  (λ rw, (rw.1, events rw.2, stdout rw.2)) <$> Trigger 2 "src" false w_two
    = Some (Returns (Some "boom"),
            [Invoked 1 "src" false; Invoked 0 "src/y" false],
            ["triggering src"; "triggering src/y"]).
Proof. vm_compute. reflexivity. Qed.

(** ** Instances of the further properties *)

Definition final (o : option (outcome * World)) : World :=
  match o with
  | Some (_, w) => w
  | None => initial example_env
  end.

Lemma Trigger_calls_first_unignored_witness :
  shouldIgnore "src/y" w_two = false ∧
  ∃ m, matchers (final (Trigger 2 "src" false w_two)) !! 0 = Some m ∧
       MatchString (pattern m) "src/y" = true ∧
       ∀ k m', k < 0 → matchers (final (Trigger 2 "src" false w_two)) !! k = Some m' →
               MatchString (pattern m') "src/y" = false.
Proof.
  apply (Trigger_calls_first_unignored 2 "src" false w_two (Returns (Some "boom"))
           (final (Trigger 2 "src" false w_two))
           [Invoked 1 "src" false; Invoked 0 "src/y" false] 0 "src/y" false).
  - vm_compute. reflexivity.
  - vm_compute. reflexivity.
  - repeat constructor.
Defined.

Lemma Trigger_prints_each_call_witness :
  stdout (final (Trigger 2 "src" false w_two))
    = stdout w_two ++
      (trigger_line <$> [Invoked 1 "src" false; Invoked 0 "src/y" false]).
Proof.
  apply (Trigger_prints_each_call 2 "src" false w_two (Returns (Some "boom"))).
  - vm_compute. reflexivity.
  - vm_compute. reflexivity.
Defined.

(** The walk up to ["src"], and the world in which the func of ["src/y"]
    fails. *)
Definition w_before_fail : World :=
  final (Trigger_walk (Trigger 1) (literal "src") false
           [WalkEntry "." true None; WalkEntry "build" true None;
            WalkEntry "build/x" false None; WalkEntry "src" true None] w_two).

Definition w_failed : World :=
  emit (Invoked 0 "src/y" false) (println "triggering src/y" w_before_fail).


Lemma Trigger_Watch_returns_only_watcher_errors_witness :
  Errors (Some "closed") ∈ [Events "src/y" Write_; Errors (Some "closed"); TimeAfter].
Proof.
  apply (Trigger_Watch_returns_only_watcher_errors 2
           [Events "src/y" Write_; Errors (Some "closed"); TimeAfter] ["."] w_two
           (Some "closed")
           (final ((λ rw, (Returns None, rw.2)) <$>
              Watch_loop 2 [Events "src/y" Write_; Errors (Some "closed"); TimeAfter]
                ["."] w_two))).
  vm_compute. reflexivity.
Defined.

Lemma Trigger_terminates_without_nested_witness :
  ∃ r w', Trigger 1 "src" true w_two = Some (r, w').
Proof.
  apply (Trigger_terminates_without_nested "src" true w_two).
  repeat constructor.
Defined.

(** A func that triggers the whole tree again. *)
Definition w_loop : World :=
  (Match "" (λ _ d, HTrigger "" d (λ err, HReturn err)) (initial example_env)).2.

Lemma Trigger_diverges_on_self_trigger_witness : Trigger 7 "" false w_loop = None.
Proof.
  apply (Trigger_diverges_on_self_trigger 7 "" (literal "") (literal "")
           (λ err, HReturn err) (WalkEntry "." true None)
           [WalkEntry "build" true None; WalkEntry "build/x" false None;
            WalkEntry "src" true None; WalkEntry "src/y" false None]
           false w_loop); reflexivity.
Defined.

End Triggers.

(** * The example build system (example/watch.go) *)
Module WatchExample.

Section Definitions.

(** [filepath.Separator], which depends on the operating system. *)
Variable Separator : Ascii.ascii.

(** [strings.Index(s, substr)]: the position of the first occurrence, [None]
    for -1. *)
Definition Index (s substr : string) : option nat := String.index 0 substr s.

(** [rest]: what follows the first separator of the path, or the empty
    string when there is none ([path[i+1:]]). *)
Definition rest (path : string) : string :=
  match Index path (String Separator EmptyString) with
  | None => ""
  | Some i => String.substring (i + 1) (String.length path - (i + 1)) path
  end.

(** [titleExp.FindStringSubmatch], for the expression that [titleExp] is
    compiled from: nil ([None]) or the match followed by its groups. *)
Variable FindStringSubmatch : string → option (list string).

(** [parseTitle] over the lines that the [bufio.Scanner] yields before
    [Scan] returns false; [err] is what [s.Err()] returns then. *)
Fixpoint parseTitle (lines : list string) (err : option error)
    : string * option error :=
  match lines with
  | [] => ("Ryan Brown", err)
  | line :: lines' =>
      match FindStringSubmatch line with
      | Some (_ :: title :: _) => (title, None)
      | _ => parseTitle lines' err
      end
  end.

End Definitions.

Section Facts.
Variable Separator : Ascii.ascii.

Lemma substring_all s : String.substring 0 (String.length s) s = s.
Proof. induction s as [|c s IH]; simpl; [done|]. by rewrite IH. Qed.

Lemma substring_skip n s t :
  String.substring (String.length s + n) (String.length t - n) (s +:+ t)
    = String.substring n (String.length t - n) t.
Proof. induction s as [|c s IH]; simpl; [done|]. apply IH. Qed.

Lemma length_append s t :
  String.length (s +:+ t) = String.length s + String.length t.
Proof. induction s as [|c s IH]; simpl; [done|]. by rewrite IH. Qed.

Lemma prefix_char c d s :
  String.prefix (String c EmptyString) (String d s) = bool_decide (c = d).
Proof.
  destruct (String.prefix (String c EmptyString) (String d s)) eqn:H.
  - apply String.prefix_correct in H. simpl in H.
    rewrite bool_decide_true; [done|].
    destruct s; simpl in H; by inversion H.
  - rewrite bool_decide_false; [done|]. intros ->.
    assert (String.prefix (String d EmptyString) (String d s) = true) as H';
      [|congruence].
    apply String.prefix_correct. simpl. by destruct s.
Qed.

Lemma index_cons sub c s :
  String.index 0 sub (String c s)
    = if String.prefix sub (String c s) then Some 0
      else match String.index 0 sub s with
           | Some n => Some (S n)
           | None => None
           end.
Proof. reflexivity. Qed.

Lemma Index_first_separator a b :
  Separator ∉ String.list_ascii_of_string a →
  Index (a +:+ String Separator b) (String Separator EmptyString)
    = Some (String.length a).
Proof.
  unfold Index. induction a as [|c a IH]; intros Hn.
  - change ("" +:+ String Separator b) with (String Separator b).
    by rewrite index_cons, prefix_char, bool_decide_true.
  - change (String c a +:+ String Separator b)
      with (String c (a +:+ String Separator b)).
    change (String.list_ascii_of_string (String c a))
      with (c :: String.list_ascii_of_string a) in Hn.
    apply not_elem_of_cons in Hn as [Hc Hn].
    rewrite index_cons, prefix_char, bool_decide_false by done.
    by rewrite IH.
Qed.

Lemma Index_no_separator a :
  Separator ∉ String.list_ascii_of_string a →
  Index a (String Separator EmptyString) = None.
Proof.
  unfold Index. induction a as [|c a IH]; intros Hn; [done|].
  change (String.list_ascii_of_string (String c a))
    with (c :: String.list_ascii_of_string a) in Hn.
  apply not_elem_of_cons in Hn as [Hc Hn].
  rewrite index_cons, prefix_char, bool_decide_false by done.
  by rewrite IH.
Qed.

(** X24: [rest] drops the first component of a path: for a path made of a
    component without separator, a separator and a remainder, it returns
    the remainder (which may hold further separators, and is empty when the
    path ends with its first separator). *)
Theorem rest_after_first_separator a b :
  Separator ∉ String.list_ascii_of_string a →
  rest Separator (a +:+ String Separator b) = b.
Proof.
  intros Hn. unfold rest. rewrite Index_first_separator by done.
  rewrite length_append. simpl.
  replace (String.length a + S (String.length b) - (String.length a + 1))
    with (String.length (String Separator b) - 1) by (simpl; lia).
  rewrite (substring_skip 1 a (String Separator b)). simpl.
  rewrite Nat.sub_0_r. apply substring_all.
Qed.

(** X25: [rest] of a path without separator is the empty string, not the
    path. *)
Theorem rest_without_separator a :
  Separator ∉ String.list_ascii_of_string a → rest Separator a = "".
Proof. intros Hn. unfold rest. by rewrite Index_no_separator. Qed.

Variable FindStringSubmatch : string → option (list string).

(** A line in which [titleExp] finds a match with its group. *)
Definition has_title (line : string) : Prop :=
  ∃ m title ms, FindStringSubmatch line = Some (m :: title :: ms).

(** X26: [parseTitle] returns the first group of the match in the first
    line that has one, with a nil error: the lines after it are not looked
    at, and an error of the scanner is not reported. *)
Theorem parseTitle_first_title pre line post m title ms err :
  Forall (λ l, ¬ has_title l) pre →
  FindStringSubmatch line = Some (m :: title :: ms) →
  parseTitle FindStringSubmatch (pre ++ line :: post) err = (title, None).
Proof.
  intros Hpre Hl. induction Hpre as [|l pre Hno _ IH]; simpl.
  - by rewrite Hl.
  - destruct (FindStringSubmatch l) as [[|m' [|t' ms']]|] eqn:E; try done.
    destruct Hno. by exists m', t', ms'.
Qed.

(** X27: when no line has a title, [parseTitle] returns the default title
    ["Ryan Brown"] together with the error of the scanner, if any. *)
Theorem parseTitle_default lines err :
  Forall (λ l, ¬ has_title l) lines →
  parseTitle FindStringSubmatch lines err = ("Ryan Brown", err).
Proof.
  intros H. induction H as [|l lines Hno _ IH]; simpl; [done|].
  destruct (FindStringSubmatch l) as [[|m' [|t' ms']]|] eqn:E; try done.
  destruct Hno. by exists m', t', ms'.
Qed.

End Facts.

(** What [FindStringSubmatch] of [titleExp] gives on a line of text (the
    expression is a sharp sign, a space and a group that takes the rest of
    the line): the match runs from the first ["# "] to the end of the line,
    and the group is what follows the ["# "]. *)
Definition find_title (line : string) : option (list string) :=
  match String.index 0 "# " line with
  | None => None
  | Some i =>
      Some [String.substring i (String.length line - i) line;
            String.substring (i + 2) (String.length line - (i + 2)) line]
  end.

(** The separator of Unix paths, ["/"]. *)
Definition slash : Ascii.ascii := Ascii.ascii_of_nat 47.

Lemma rest_after_first_separator_witness :
  rest slash ("content" +:+ String slash "foo/bar.md") = "foo/bar.md".
Proof.
  apply (rest_after_first_separator slash "content" "foo/bar.md").
  simpl. intros H.
  repeat (apply elem_of_cons in H as [H|H]; [discriminate|]).
  by apply elem_of_nil in H.
Defined.

Lemma rest_without_separator_witness : rest slash "watch.go" = "".
Proof.
  apply (rest_without_separator slash "watch.go").
  simpl. intros H.
  repeat (apply elem_of_cons in H as [H|H]; [discriminate|]).
  by apply elem_of_nil in H.
Defined.

Lemma no_title_in_plain_line : ¬ has_title find_title "plain text".
Proof. intros (m & title & ms & H). vm_compute in H. discriminate. Qed.

Lemma parseTitle_first_title_witness :
  parseTitle find_title (["plain text"] ++ "## Deep # Title" :: ["# Later"])
    (Some "token too long")
  = ("Deep # Title", None).
Proof.
  apply (parseTitle_first_title find_title ["plain text"] "## Deep # Title"
           ["# Later"] "# Deep # Title" "Deep # Title" [] (Some "token too long")).
  - repeat constructor. apply no_title_in_plain_line.
  - vm_compute. reflexivity.
Defined.

Lemma parseTitle_default_witness :
  parseTitle find_title ["plain text"] (Some "token too long")
  = ("Ryan Brown", Some "token too long").
Proof.
  apply (parseTitle_default find_title ["plain text"] (Some "token too long")).
  repeat constructor. apply no_title_in_plain_line.
Defined.

End WatchExample.

(** * Both variants *)
Section Variants.
Context `{RT : Runtime}.

(** C9 (amended): in both variants, [Match] with a pattern that does not
    compile as a regular expression panics ([regexp.MustCompile]); [Match]
    has no error result and returns nothing to its caller.  The panic comes
    before the append: the world, and so the registry, is as it was. *)
Theorem Match_invalid_pattern_panics pat e :
  Compile pat = inr e →
  (∀ h w, States.Match pat h w = (Panics ("regexp: Compile: " +:+ e), w)) ∧
  (∀ h w, Triggers.Match pat h w = (Panics ("regexp: Compile: " +:+ e), w)).
Proof.
  intros H. split; intros h w.
  - by apply States.Match_MustCompile_panics.
  - by apply Triggers.Trigger_Match_panics.
Qed.

(** C2 (amended): in neither variant does an error returned by a handler
    stop [Watch].  In the state-tracking variant [Watch] calls [Dispatch]
    on a timer tick and drops its result: whatever error [Dispatch]
    returned, the loop goes on with the next [select] from the world that
    [Dispatch] left, and on timer ticks alone [Watch] never returns.  In
    the trigger variant [Watch] prints the error that [Trigger] returns for
    an event and goes on with the next event. *)
Theorem Watch_survives_handler_error fuel rest dirs :
  (∀ w err w',
     States.Dispatch fuel w = Some (Returns err, w') →
     States.Watch_loop fuel (TimeAfter :: rest) dirs w
       = States.Watch_loop fuel rest dirs w') ∧
  (∀ n w res w',
     States.Watch_loop fuel (replicate n TimeAfter) dirs w = Some (res, w') →
     ∀ e, res ≠ Stopped (Returns e)) ∧
  (∀ name op w err w',
     Triggers.shouldIgnore name w = false → N.land op Create = 0%N →
     Triggers.Trigger fuel ("^" +:+ name +:+ "$")
       (bool_decide (N.land op Remove ≠ 0%N)) w = Some (Returns (Some err), w') →
     Triggers.Watch_loop fuel (Events name op :: rest) dirs w
       = Triggers.Watch_loop fuel rest dirs (Triggers.println err w')).
Proof.
  split_and!.
  - intros w err w'. apply States.Watch_loop_tick.
  - intros n w res w'. apply States.Watch_loop_ticks.
  - intros name op w err w'. apply Triggers.Trigger_Watch_prints_error.
Qed.

End Variants.

Lemma Match_invalid_pattern_panics_witness :
  (∀ h w, States.Match (RT := literal_runtime) "(" h w
            = (Panics ("regexp: Compile: " +:+ "missing closing )"), w)) ∧
  (∀ h w, Triggers.Match (RT := literal_runtime) "(" h w
            = (Panics ("regexp: Compile: " +:+ "missing closing )"), w)).
Proof.
  apply (Match_invalid_pattern_panics (RT := literal_runtime) "(" "missing closing )").
  reflexivity.
Defined.

Lemma Watch_survives_handler_error_witness :
  States.Watch_loop (RT := literal_runtime) 3 [TimeAfter; Events "a" Write_] []
    States.w_fail_first
  = States.Watch_loop 3 [Events "a" Write_] []
      (States.final (States.Dispatch 3 States.w_fail_first)).
Proof.
  apply (proj1 (Watch_survives_handler_error (RT := literal_runtime) 3
                  [Events "a" Write_] [])
           States.w_fail_first (Some "boom")).
  vm_compute. reflexivity.
Defined.

(** * Patterns that do not compile *)
Section Patterns.
Context `{RT : Runtime}.

(** X28: a pattern that does not compile makes [Ignore] panic, as it does
    [Match], in both variants, and the registry of ignore patterns is as
    before; [SetStates] and [Trigger] compile with [regexp.Compile] and
    return the error to their caller instead, without walking the tree and
    without changing anything. *)
Theorem invalid_pattern_panic_or_error pat e :
  Compile pat = inr e →
  (∀ w, States.Ignore pat w = (Panics ("regexp: Compile: " +:+ e), w)) ∧
  (∀ w, Triggers.Ignore pat w = (Panics ("regexp: Compile: " +:+ e), w)) ∧
  (∀ state w, States.SetStates pat state w = (Some e, w)) ∧
  (∀ fuel deleted w,
     Triggers.Trigger (S fuel) pat deleted w = Some (Returns (Some e), w)).
Proof.
  intros H. split_and!.
  - intros w. unfold States.Ignore, MustCompile. by rewrite H.
  - intros w. unfold Triggers.Ignore, MustCompile. by rewrite H.
  - intros state w. unfold States.SetStates. by rewrite H.
  - intros fuel deleted w. simpl. by rewrite H.
Qed.

End Patterns.

Lemma invalid_pattern_panic_or_error_witness :
  (∀ w, States.Ignore (RT := literal_runtime) "(" w
          = (Panics ("regexp: Compile: " +:+ "missing closing )"), w)) ∧
  (∀ w, Triggers.Ignore (RT := literal_runtime) "(" w
          = (Panics ("regexp: Compile: " +:+ "missing closing )"), w)) ∧
  (∀ state w, States.SetStates (RT := literal_runtime) "(" state w
                = (Some "missing closing )", w)) ∧
  (∀ fuel deleted w,
     Triggers.Trigger (RT := literal_runtime) (S fuel) "(" deleted w
       = Some (Returns (Some "missing closing )"), w)).
Proof.
  apply (invalid_pattern_panic_or_error (RT := literal_runtime) "(" "missing closing )").
  reflexivity.
Defined.
